(** * The SNAP launcher: session controller and frame loop

    A shallow embedding of [src/launcher.py]: the [MainApp] methods
    [load_module], [load_config], [start_module], [cancel_module],
    [prune_module] and [_main_loop_tick], the request handler of the
    remote-control server, and the top-level main loop.

    Python text is modelled as [string] (code points below 256), the
    [bytes] read from a socket as [list byte].  Everything the launcher
    does not define itself (the import system, the module's [Main] class
    and its methods, [exec], the file system) is a [world]: an oracle that
    answers from the history of events so far, so that a collaborator may
    behave differently each time it is called. *)

From Stdlib Require Import ZArith Ascii String List.
From Stdlib.Strings Require Import Byte.
From stdpp Require Import base option list gmap strings.
Import ListNotations.

Local Open Scope Z_scope.
Local Open Scope nat_scope.

(** ** Python text *)

Module Py.

(** [str.isspace] on one character, for code points below 256. *)
Definition isspace (c : ascii) : bool :=
  let n := nat_of_ascii c in
  ((9 <=? n) && (n <=? 13)) || ((28 <=? n) && (n <=? 32))
  || (n =? 133) || (n =? 160).

(** [bytes.isspace] on one byte: the six ASCII white space characters. *)
Definition isspace_byte (b : byte) : bool :=
  let n := Byte.to_nat b in
  ((9 <=? n) && (n <=? 13)) || (n =? 32).

Fixpoint lstrip_by {A} (sp : A -> bool) (l : list A) : list A :=
  match l with
  | x :: l' => if sp x then lstrip_by sp l' else l
  | [] => []
  end.

Definition strip_by {A} (sp : A -> bool) (l : list A) : list A :=
  rev (lstrip_by sp (rev (lstrip_by sp l))).

(** [s.strip()] on a [str]. *)
Definition strip (s : string) : string :=
  string_of_list_ascii (strip_by isspace (list_ascii_of_string s)).

(** [b.strip()] on a [bytes]. *)
Definition strip_bytes (b : list byte) : list byte :=
  strip_by isspace_byte b.

(** [s.startswith(p)] and [s.endswith(p)]. *)
Fixpoint startswith (s p : string) {struct p} : bool :=
  match p with
  | EmptyString => true
  | String c p' =>
      match s with
      | EmptyString => false
      | String d s' => Ascii.eqb d c && startswith s' p'
      end
  end.

Definition endswith (s p : string) : bool :=
  startswith (String.rev s) (String.rev p).

(** [s[n:]]. *)
Fixpoint drop (n : nat) (s : string) : string :=
  match n, s with
  | 0, _ => s
  | S n', String _ s' => drop n' s'
  | S _, EmptyString => EmptyString
  end.

Definition hexdigit (n : nat) : ascii :=
  if n <? 10 then ascii_of_nat (48 + n) else ascii_of_nat (87 + n).

(** One byte of [repr(b)], inside the quotes [q]. *)
Definition repr_byte (q : ascii) (b : byte) : list ascii :=
  let c := ascii_of_byte b in
  let n := Byte.to_nat b in
  if Ascii.eqb c q || Ascii.eqb c "\"%char then ["\"%char; c]
  else if n =? 9 then ["\"; "t"]%char
  else if n =? 10 then ["\"; "n"]%char
  else if n =? 13 then ["\"; "r"]%char
  else if (n <? 32) || (127 <=? n)
       then ["\"%char; "x"%char; hexdigit (n / 16); hexdigit (n mod 16)]
  else [c].

Definition has_byte (n : nat) (b : list byte) : bool :=
  existsb (fun x => Byte.to_nat x =? n) b.

(** [repr(b)] of a [bytes]: the literal [b'...'], in double quotes when
    the bytes hold a single quote and no double quote. *)
Definition repr_bytes (b : list byte) : string :=
  let q := if has_byte 39 b && negb (has_byte 34 b)
           then ascii_of_nat 34 else ascii_of_nat 39 in
  String "b" (String q
    (string_of_list_ascii (concat (map (repr_byte q) b) ++ [q]))).

(** [os.path.join(a, b)] for POSIX paths. *)
Definition path_join (a b : string) : string :=
  if startswith b "/" then b
  else if (String.length a =? 0) || endswith a "/" then a +:+ b
  else a +:+ "/" +:+ b.

End Py.

(** What a producer can put on the command queue: the key bindings put a
    [str], the request handler puts the [bytes] it read. *)
Inductive item :=
| IStr (s : string)
| IBytes (b : list byte).

(** [str(x)] of a queue item. *)
Definition py_str (x : item) : string :=
  match x with
  | IStr s => s
  | IBytes b => Py.repr_bytes b
  end.

Definition bytes_of (s : string) : list byte := list_byte_of_string s.

(** ** Values, exceptions, events *)

(** Python values held in an instance's attribute namespace. *)
Inductive value :=
| VNone
| VBool (b : bool)
| VInt (z : Z)
| VStr (s : string)
| VObj (h : nat).

(** The exceptions the launcher tells apart.  [NonException] stands for a
    [BaseException] outside [Exception] ([SystemExit], [KeyboardInterrupt]);
    [ModuleNotFoundError] is a subclass of [ImportError]. *)
Inductive exn :=
| ModuleNotFoundError
| ImportError
| AttributeError
| QueueEmpty
| OtherException (n : nat)
| NonException (n : nat).

Definition is_Exception (e : exn) : bool :=
  match e with NonException _ => false | _ => true end.

Definition is_ModuleNotFoundError (e : exn) : bool :=
  match e with ModuleNotFoundError => true | _ => false end.

Definition is_ImportError (e : exn) : bool :=
  match e with ModuleNotFoundError | ImportError => true | _ => false end.

Definition is_QueueEmpty (e : exn) : bool :=
  match e with QueueEmpty => true | _ => false end.

(** A module object and an instance of its [Main] class, by identity. *)
Definition pymodule := nat.
Definition inst := nat.

(** The capability set of a module instance. *)
Inductive meth := MStart | MCancel | MPrune | MTick.

(** The launcher's [print] sites. *)
Inductive log_msg :=
| LImporting (name : string)
| LDoneImporting (m : pymodule)
| LSearching (name : string)
| LNotFound (name : string)
| LNotImported (name : string) (e : exn)
| LTraceback (e : exn)
| LInstantiating
| LDone
| LAttemptConfig (name : string)
| LFileNotFound (name studypath : string)
| LSettingVariables
| LConfigLoaded
| LConfigError (name : string)
| LPrintExn (e : exn)
| LStarting
| LCanceling
| LPruning
| LPruneException
| LMainLoopError (e : exn)
| LTerminating.

(** What the launcher does to the outside, in order. *)
Inductive event :=
| ELog (l : log_msg)
| ECall (i : inst) (m : meth)
| EImport (name : string)
| EWalkModules (name : string)
| ENew (i : inst)
| EExec (code : string) (i : inst)
| EExists (path : string)
| EOpen (path : string)
| EMain (m : pymodule)
| EGet (x : item)
| ESetDefaults
| ELockRelease
| ELockAcquire.

Definition dict := gmap string value.

(** The collaborators, each answering from the events so far. *)
Record world := {
  (** [__import__(name)] *)
  w_import : list event -> string -> exn + pymodule;
  (** [m.Main()]: the [__dict__] of the new instance, or what it raises *)
  w_Main : list event -> pymodule -> exn + dict;
  (** [i.start()], [i.cancel()], [i.prune()], [i.tick()] *)
  w_call : list event -> inst -> meth -> option exn;
  (** [exec(code, d)]: [d] afterwards, and what was raised if anything *)
  w_exec : list event -> string -> dict -> dict * option exn;
  (** [os.path.exists(path)] *)
  w_exists : list event -> string -> bool;
  (** [open(path, 'r')] and its lines, each with its line end *)
  w_open : list event -> string -> exn + list string
}.

(** The fields of [opts] the methods read, and the global [oscclient]. *)
Record options := {
  module : option string;
  autolaunch : bool;
  studypath : string;
  timecompensation : value;
  oscclient : value
}.

(** ** The application object *)

Record MainApp := {
  _module : option pymodule;
  _instance : option inst;
  _executing : bool;
  _remote_commands : list item;
  (** the [__dict__] of every instance created so far *)
  heap : gmap inst dict;
  (** the events so far, oldest first *)
  trace : list event
}.

(** The fields as [MainApp.__init__] sets them. *)
Definition init : MainApp :=
  {| _module := None; _instance := None; _executing := false;
     _remote_commands := []; heap := ∅; trace := [] |}.

Definition with_module (m : option pymodule) (a : MainApp) : MainApp :=
  {| _module := m; _instance := _instance a; _executing := _executing a;
     _remote_commands := _remote_commands a; heap := heap a; trace := trace a |}.

Definition with_instance (i : option inst) (a : MainApp) : MainApp :=
  {| _module := _module a; _instance := i; _executing := _executing a;
     _remote_commands := _remote_commands a; heap := heap a; trace := trace a |}.

Definition with_executing (b : bool) (a : MainApp) : MainApp :=
  {| _module := _module a; _instance := _instance a; _executing := b;
     _remote_commands := _remote_commands a; heap := heap a; trace := trace a |}.

Definition with_queue (q : list item) (a : MainApp) : MainApp :=
  {| _module := _module a; _instance := _instance a; _executing := _executing a;
     _remote_commands := q; heap := heap a; trace := trace a |}.

Definition with_heap (h : gmap inst dict) (a : MainApp) : MainApp :=
  {| _module := _module a; _instance := _instance a; _executing := _executing a;
     _remote_commands := _remote_commands a; heap := h; trace := trace a |}.

Definition with_event (e : event) (a : MainApp) : MainApp :=
  {| _module := _module a; _instance := _instance a; _executing := _executing a;
     _remote_commands := _remote_commands a; heap := heap a;
     trace := trace a ++ [e] |}.

(** ** Statements: state passing with exceptions *)

Inductive result (A : Type) :=
| Normal (x : A)
| Raised (e : exn).
Arguments Normal {A} x.
Arguments Raised {A} e.

Definition py (A : Type) : Type := MainApp -> result A * MainApp.

Definition ret {A} (x : A) : py A := fun a => (Normal x, a).

Definition raise {A} (e : exn) : py A := fun a => (Raised e, a).

Definition bind {A B} (c : py A) (k : A -> py B) : py B :=
  fun a => match c a with
           | (Normal x, a') => k x a'
           | (Raised e, a') => (Raised e, a')
           end.

(** [try: c  except <handles>: h] *)
Definition try_except {A} (c : py A) (handles : exn -> bool)
    (h : exn -> py A) : py A :=
  fun a => match c a with
           | (Normal x, a') => (Normal x, a')
           | (Raised e, a') => if handles e then h e a' else (Raised e, a')
           end.

Declare Scope py_scope.
Delimit Scope py_scope with py.
Notation "x <- c ;; k" := (bind c (fun x => k))
  (at level 100, c at next level, right associativity) : py_scope.
Notation "c ;; k" := (bind c (fun _ => k))
  (at level 100, right associativity) : py_scope.

Definition emit (e : event) : py unit := fun a => (Normal tt, with_event e a).

Definition print (l : log_msg) : py unit := emit (ELog l).

Definition of_sum {A} (r : exn + A) : py A :=
  match r with inl e => raise e | inr x => ret x end.

Definition of_option (r : option exn) : py unit :=
  match r with Some e => raise e | None => ret tt end.

Definition get {A} (f : MainApp -> A) : py A := fun a => (Normal (f a), a).

Definition modify (f : MainApp -> MainApp) : py unit :=
  fun a => (Normal tt, f a).

(** ** The methods of [MainApp] *)

Section Launcher.

Variable W : world.
Variable opts : options.

Local Open Scope py_scope.

(** *** Calls to the collaborators *)

Definition import_ (name : string) : py pymodule :=
  fun a => of_sum (w_import W (trace a) name) (with_event (EImport name) a).

Definition call (i : inst) (m : meth) : py unit :=
  fun a => of_option (w_call W (trace a) i m) (with_event (ECall i m) a).

Definition path_exists (path : string) : py bool :=
  fun a => (Normal (w_exists W (trace a) path), with_event (EExists path) a).

Definition open_ (path : string) : py (list string) :=
  fun a => of_sum (w_open W (trace a) path) (with_event (EOpen path) a).

(** [m.Main()]: a new object, distinct from every instance made so far. *)
Definition new_Main (m : pymodule) : py inst :=
  fun a =>
    match w_Main W (trace a) m with
    | inl e => (Raised e, with_event (EMain m) a)
    | inr d =>
        let i := fresh (dom (heap a)) in
        (Normal i,
         with_event (ENew i)
           (with_event (EMain m) (with_heap (<[i := d]> (heap a)) a)))
    end.

(** [self._instance.<attribute>]: [None] has no attributes. *)
Definition the_instance : py inst :=
  i <- get _instance;;
  match i with
  | Some i => ret i
  | None => raise AttributeError
  end.

(** [i.<key> = v] *)
Definition setattr (i : inst) (key : string) (v : value) : py unit :=
  modify (fun a =>
    with_heap (<[i := <[key := v]> (default ∅ (heap a !! i))]> (heap a)) a).

(** [exec(code, i.__dict__)]: the namespace keeps what the code did to
    it, also when the code raises. *)
Definition exec_ (code : string) (i : inst) : py unit :=
  fun a =>
    let r := w_exec W (trace a) code (default ∅ (heap a !! i)) in
    of_option r.2
      (with_event (EExec code i) (with_heap (<[i := r.1]> (heap a)) a)).

(** [set_defaults]: engine bookkeeping only. *)
Definition set_defaults : py unit := emit ESetDefaults.

(** *** prune_module *)

Definition prune_module : py unit :=
  i <- get _instance;;
  match i with
  | Some _ =>
      print LPruning;;
      try_except (j <- the_instance;; call j MPrune)
        is_Exception
        (fun e => print LPruneException;; print (LPrintExn e));;
      print LDone
  | None => ret tt
  end.

(** *** cancel_module *)

Definition cancel_module : py unit :=
  i <- get _instance;;
  ex <- get _executing;;
  (match i with
   | Some _ =>
       if ex then
         print LCanceling;;
         j <- the_instance;; call j MCancel;;
         print LDone
       else ret tt
   | None => ret tt
   end);;
  modify (with_executing false).

(** *** start_module *)

Definition start_module : py unit :=
  i <- get _instance;;
  match i with
  | Some _ =>
      cancel_module;;
      print LStarting;;
      j <- the_instance;; call j MStart;;
      print LDone;;
      modify (with_executing true)
  | None => ret tt
  end.

(** *** load_module *)

(** [self._module = __import__(name)] and the [print] after it. *)
Definition import_module (name : string) : py unit :=
  m <- import_ name;;
  modify (with_module (Some m));;
  print (LDoneImporting m).

(** The search under the local [modules] folder, which extends
    [sys.path]. *)
Definition search_locally (name : string) : py unit :=
  found <- path_exists "modules";;
  if found then print (LSearching name);; emit (EWalkModules name)
  else ret tt.

Definition load_module (name : string) : py unit :=
  if 0 <? String.length name then
    print (LImporting name);;
    i <- get _instance;;
    (match i with Some _ => prune_module | None => ret tt end);;
    set_defaults;;
    try_except (import_module name)
      is_ModuleNotFoundError
      (fun _ =>
         search_locally name;;
         try_except (import_module name)
           is_ImportError
           (fun err =>
              if is_ModuleNotFoundError err then
                print (LNotFound name);; raise err
              else
                print (LNotImported name err);;
                print (LTraceback err);;
                raise err));;
    print LInstantiating;;
    m <- get _module;;
    match m with
    | Some m =>
        j <- new_Main m;;
        modify (with_instance (Some j));;
        k <- the_instance;;
        setattr k "_make_up_for_lost_time" (timecompensation opts);;
        k <- the_instance;;
        setattr k "_oscclient" (oscclient opts);;
        print LDone
    | None => raise AttributeError
    end
  else ret tt.

(** *** load_config *)

(** [for line in f.readlines(): exec(line, self._instance.__dict__)] *)
Fixpoint exec_lines (lines : list string) : py unit :=
  match lines with
  | [] => ret tt
  | line :: rest => i <- the_instance;; exec_ line i;; exec_lines rest
  end.

Definition load_config (name : string) : py unit :=
  print (LAttemptConfig name);;
  try_except
    (here <- path_exists name;;
     file <- (if here then ret (Some name)
              else
                there <- path_exists (Py.path_join (studypath opts) name);;
                if there then ret (Some (Py.path_join (studypath opts) name))
                else ret None);;
     match file with
     | Some file =>
         lines <- open_ file;;
         load_module (Py.strip (hd ""%string lines));;
         print LSettingVariables;;
         exec_lines (tl lines);;
         print LConfigLoaded
     | None => print (LFileNotFound name (studypath opts))
     end)
    is_Exception
    (fun err =>
       print (LConfigError name);;
       print (LPrintExn err);;
       print (LTraceback err)).

(** *** _main_loop_tick *)

(** The [if]/[elif] chain over one command. *)
Definition dispatch (cmd : string) : py unit :=
  if String.eqb cmd "start" then start_module
  else if String.eqb cmd "cancel" || String.eqb cmd "stop" then cancel_module
  else if String.eqb cmd "prune" then prune_module
  else if Py.startswith cmd "load " then load_module (Py.drop 5 cmd)
  else if Py.startswith cmd "setup " then
    try_except (i <- the_instance;; exec_ (Py.drop 6 cmd) i)
      (fun _ => true) (fun _ => ret tt)
  else if Py.startswith cmd "config " then
    if negb (Py.endswith cmd ".cfg")
    then load_config (Py.drop 7 cmd +:+ ".cfg")
    else load_config (Py.drop 7 cmd)
  else ret tt.

(** [get_nowait()] returned [x]: it is off the queue, and applied. *)
Definition take (x : item) (rest : list item) : py unit :=
  modify (with_queue rest);;
  emit (EGet x);;
  dispatch (Py.strip (py_str x)).

(** The [while True] loop when no producer is active: it ends when
    [get_nowait()] raises [queue.Empty]. *)
Fixpoint drain (q : list item) : py unit :=
  match q with
  | [] => raise QueueEmpty
  | x :: q' => take x q';; drain q'
  end.

(** The same loop with producers: [arrivals] lists, for each command
    the loop takes, what the connections put on the queue while that
    command is applied. *)
Fixpoint drain_during (arrivals : list (list item)) (q : list item)
    : py unit :=
  match arrivals with
  | [] => drain q
  | new :: arrivals' =>
      match q with
      | [] => raise QueueEmpty
      | x :: q' => take x (q' ++ new);; drain_during arrivals' (q' ++ new)
      end
  end.

Definition tick_module : py unit :=
  i <- get _instance;;
  ex <- get _executing;;
  match i with
  | Some _ => if ex then j <- the_instance;; call j MTick else ret tt
  | None => ret tt
  end.

Definition main_loop_tick_during (arrivals : list (list item)) : py unit :=
  emit ELockRelease;;
  try_except (q <- get _remote_commands;; drain_during arrivals q)
    is_QueueEmpty (fun _ => ret tt);;
  tick_module;;
  emit ELockAcquire.

Definition _main_loop_tick : py unit := main_loop_tick_during [].

(** *** The main loop

    [frames] lists, for each frame, what was put on the queue since the
    frame before; the task manager's [step] runs the one task. *)
Fixpoint main_loop (frames : list (list item)) : py unit :=
  match frames with
  | [] => ret tt
  | new :: frames' =>
      modify (fun a => with_queue (_remote_commands a ++ new) a);;
      emit ELockAcquire;;
      _main_loop_tick;;
      emit ELockRelease;;
      main_loop frames'
  end.

(** [MainApp.__init__], after the fields are set: the initial load and
    the automatic start. *)
Definition MainApp_init : py unit :=
  (match module opts with
   | Some name =>
       if Py.endswith name ".cfg" then load_config name
       else load_module name
   | None => ret tt
   end);;
  if autolaunch opts then start_module else ret tt.

Definition snap_main (frames : list (list item)) : py unit :=
  try_except (MainApp_init;; main_loop frames)
    is_Exception
    (fun e => print (LMainLoopError e);; print (LTraceback e));;
  print LTerminating.

End Launcher.

(** ** The request handler of the remote-control server

    [lines] are the successive results of [rfile.readline()]; the end of
    the list is the read that raises. *)
Fixpoint handle (lines : list (list byte)) : list item :=
  match lines with
  | [] => []
  | l :: rest =>
      let data := Py.strip_bytes l in
      if length data =? 0 then [] else IBytes data :: handle rest
  end.

(** ** Observations on a state *)

(** The session state of the specification. *)
Inductive session := Unloaded | Loaded | Running.

Definition session_state (a : MainApp) : session :=
  match _instance a with
  | None => Unloaded
  | Some _ => if _executing a then Running else Loaded
  end.

(** The calls made on module instances, in order. *)
Fixpoint calls (tr : list event) : list (inst * meth) :=
  match tr with
  | [] => []
  | ECall i m :: tr' => (i, m) :: calls tr'
  | _ :: tr' => calls tr'
  end.

(** The commands taken off the queue, in order. *)
Fixpoint gets (tr : list event) : list item :=
  match tr with
  | [] => []
  | EGet x :: tr' => x :: gets tr'
  | _ :: tr' => gets tr'
  end.

(** The lines printed, in order. *)
Fixpoint logs (tr : list event) : list log_msg :=
  match tr with
  | [] => []
  | ELog l :: tr' => l :: logs tr'
  | _ :: tr' => logs tr'
  end.

(** Every call on an instance comes after the [Main()] that made it:
    [made] holds the instances made so far. *)
Fixpoint scoped (made : list inst) (tr : list event) : bool :=
  match tr with
  | [] => true
  | ENew i :: tr' => scoped (i :: made) tr'
  | ECall i _ :: tr' => existsb (Nat.eqb i) made && scoped made tr'
  | _ :: tr' => scoped made tr'
  end.

(** ** Specifications *)

(** [wp c Q E a]: run from [a], [c] returns in a state where [Q] holds of
    its value, or raises in a state where [E] holds of the exception. *)
Definition wp {A} (c : py A) (Q : A -> MainApp -> Prop)
    (E : exn -> MainApp -> Prop) (a : MainApp) : Prop :=
  match c a with
  | (Normal x, a') => Q x a'
  | (Raised e, a') => E e a'
  end.

(** The call [load_module] makes on the instance it replaces. *)
Definition prior_prune (a : MainApp) : list (inst * meth) :=
  match _instance a with
  | Some i => [(i, MPrune)]
  | None => []
  end.

(** The fields a frame keeps: the three of the session, and the calls. *)
Definition same_session (a a' : MainApp) : Prop :=
  _module a' = _module a /\
  _instance a' = _instance a /\
  _executing a' = _executing a /\
  calls (trace a') = calls (trace a).

(** The initial namespace of an instance [load_module] has set up. *)
Definition fitted (opts : options) (d : dict) : dict :=
  <["_oscclient"%string := oscclient opts]>
    (<["_make_up_for_lost_time"%string := timecompensation opts]> d).

(** [file] is where [load_config] finds [name]: in the working directory,
    or else under the study path. *)
Definition resolves (W : world) (opts : options) (name file : string) : Prop :=
  (forall tr, w_exists W tr name = true) /\ file = name \/
  (forall tr, w_exists W tr name = false) /\
  (forall tr, w_exists W tr (Py.path_join (studypath opts) name) = true) /\
  file = Py.path_join (studypath opts) name.

(** How the load of a module fails: the module is not found by either
    import, or it is imported as [m] and [m.Main()] raises something other
    than [queue.Empty]. *)
Inductive load_failure :=
| Unresolved
| Unconstructible (m : pymodule).

Definition fails (W : world) (name : string) (f : load_failure) : Prop :=
  match f with
  | Unresolved => forall tr, w_import W tr name = inl ModuleNotFoundError
  | Unconstructible m =>
      (forall tr, w_import W tr name = inr m) /\
      (forall tr, exists e, w_Main W tr m = inl e /\ is_QueueEmpty e = false)
  end.

(** What a failed load leaves behind, seen from the state [a] before it. *)
Definition failed_load (name : string) (f : load_failure) (a : MainApp)
    (e : exn) (a' : MainApp) : Prop :=
  is_QueueEmpty e = false /\
  _instance a' = _instance a /\
  _executing a' = _executing a /\
  calls (trace a') = calls (trace a) ++ prior_prune a /\
  match f with
  | Unresolved =>
      e = ModuleNotFoundError /\ _module a' = _module a /\
      heap a' = heap a /\ In (LNotFound name) (logs (trace a'))
  | Unconstructible m => _module a' = Some m
  end.

(** The events a command does not make by itself: calls are made on the
    current instance, and only the loop takes from the queue. *)
Definition is_call_or_get (e : event) : bool :=
  match e with
  | ECall _ _ | EGet _ => true
  | _ => false
  end.

(** [c] keeps [I]: from a state with [I], it returns or raises in a state
    with [I]. *)
Definition keeps (I : MainApp -> Prop) {A} (c : py A) : Prop :=
  forall a, I a -> wp c (fun _ => I) (fun _ => I) a.

(** The calls so far came after the loads, and the current instance was
    made by a load. *)
Definition loaded_first (a : MainApp) : Prop :=
  scoped [] (trace a) = true /\
  forall i, _instance a = Some i -> In (ENew i) (trace a).

(** [drained a q arrivals a']: since [a], where the queue held [q], some
    commands were taken; these and what is left on the queue are [q]
    followed by the batches that arrived meanwhile, one per command
    taken. *)
Definition drained (a : MainApp) (q : list item) (arrivals : list (list item))
    (a' : MainApp) : Prop :=
  exists taken,
    gets (trace a') = gets (trace a) ++ taken /\
    taken ++ _remote_commands a' =
      q ++ concat (firstn (length taken) arrivals).


(** The events a command can make: everything but taking from the queue,
    the lock and [tick()], which are the frame's. *)
Definition by_command (e : event) : bool :=
  match e with
  | EGet _ | ELockRelease | ELockAcquire | ECall _ MTick => false
  | _ => true
  end.

(** [extends a a']: [a'] has the trace of [a] and then events a command
    can make, and the same queue. *)
Definition extends (a a' : MainApp) : Prop :=
  _remote_commands a' = _remote_commands a /\
  exists evs, trace a' = trace a ++ evs /\ forallb by_command evs = true.




(** The instances [tick()] was called on, in order. *)
Fixpoint ticks (tr : list event) : list inst :=
  match tr with
  | [] => []
  | ECall i MTick :: tr' => i :: ticks tr'
  | _ :: tr' => ticks tr'
  end.

(** ** A test world

    One module, [demo], whose [Main] takes no attributes of its own and
    whose methods return normally; one study config, [study.cfg], with
    the lines [demo] and [x=5]; and an [exec] for statements of the form
    [name=integer]. *)

Module Demo.

Fixpoint split_eq (s : string) : option (string * string) :=
  match s with
  | EmptyString => None
  | String c s' =>
      if Ascii.eqb c "="%char then Some (EmptyString, s')
      else match split_eq s' with
           | Some (l, r) => Some (String c l, r)
           | None => None
           end
  end.

Definition is_letter (c : ascii) : bool :=
  let n := nat_of_ascii c in
  ((65 <=? n) && (n <=? 90)) || ((97 <=? n) && (n <=? 122)) || (n =? 95).

Definition is_digit (c : ascii) : bool :=
  let n := nat_of_ascii c in (48 <=? n) && (n <=? 57).

Definition keywords : list string :=
  ["False"; "None"; "True"; "and"; "as"; "assert"; "async"; "await";
   "break"; "class"; "continue"; "def"; "del"; "elif"; "else"; "except";
   "finally"; "for"; "from"; "global"; "if"; "import"; "in"; "is";
   "lambda"; "nonlocal"; "not"; "or"; "pass"; "raise"; "return"; "try";
   "while"; "with"; "yield"]%string.

Definition is_name (s : string) : bool :=
  match list_ascii_of_string s with
  | c :: cs =>
      is_letter c && forallb (fun x => is_letter x || is_digit x) cs
      && negb (existsb (String.eqb s) keywords)
  | [] => false
  end.

Fixpoint decimal (acc : Z) (cs : list ascii) : Z :=
  match cs with
  | [] => acc
  | c :: cs' => decimal (10 * acc + Z.of_nat (nat_of_ascii c - 48)) cs'
  end.

(** A decimal literal: digits, with no leading zero unless it is [0]. *)
Definition literal (s : string) : option Z :=
  match list_ascii_of_string s with
  | [] => None
  | c :: cs =>
      if forallb is_digit (c :: cs)
         && (negb (Ascii.eqb c "0"%char) || forallb (Ascii.eqb "0"%char) cs)
      then Some (decimal 0 (c :: cs))
      else None
  end.

(** [exec(code, d)] on [name=integer]; [exec] first puts [__builtins__]
    into a namespace that lacks it.  Other code is outside this test
    world and raises. *)
Definition exec_assign (code : string) (d : dict) : dict * option exn :=
  let d0 := match d !! "__builtins__"%string with
            | Some _ => d
            | None => <["__builtins__"%string := VObj 0]> d
            end in
  match split_eq code with
  | Some (l, r) =>
      let k := Py.strip l in
      match is_name k, literal (Py.strip r) with
      | true, Some z => (<[k := VInt z]> d0, None)
      | _, _ => (d0, Some (OtherException 0))
      end
  | None => (d0, Some (OtherException 0))
  end.

Definition demo : pymodule := 1.
Definition broken : pymodule := 2.

Definition nl : string := String (ascii_of_nat 10) "".

Definition env : world :=
  {| w_import := fun _ name =>
       if String.eqb name "demo" then inr demo
       else if String.eqb name "broken" then inr broken
       else inl ModuleNotFoundError;
     w_Main := fun _ m =>
       if m =? broken then inl (OtherException 1) else inr ∅;
     w_call := fun _ _ _ => None;
     w_exec := fun _ => exec_assign;
     w_exists := fun _ path => String.eqb path "study.cfg";
     w_open := fun _ path =>
       if String.eqb path "study.cfg"
       then inr ["demo" +:+ nl; "x=5" +:+ nl]
       else inl (OtherException 2) |}.

(** The same world, where every file that opens has a blank first
    line. *)
Definition blank_env : world :=
  {| w_import := w_import env;
     w_Main := w_Main env;
     w_call := w_call env;
     w_exec := w_exec env;
     w_exists := fun _ _ => true;
     w_open := fun _ _ => inr [nl; "x=5" +:+ nl] |}.

(** The same world, where every file that opens names on its first line
    a module that is not there. *)
Definition stray_env : world :=
  {| w_import := w_import env;
     w_Main := w_Main env;
     w_call := w_call env;
     w_exec := w_exec env;
     w_exists := fun _ _ => true;
     w_open := fun _ _ => inr ["nosuch" +:+ nl; "x=5" +:+ nl] |}.

(** The same world, where every file that opens loads [demo] and has a
    line that is no assignment between two that are. *)
Definition flawed_env : world :=
  {| w_import := w_import env;
     w_Main := w_Main env;
     w_call := w_call env;
     w_exec := w_exec env;
     w_exists := fun _ _ => true;
     w_open := fun _ _ =>
       inr ["demo" +:+ nl; "x=5" +:+ nl; "oops" +:+ nl; "y=1" +:+ nl] |}.

(** Options that load [demo] at startup and start it. *)
Definition auto_opts : options :=
  {| module := Some "demo"%string; autolaunch := true;
     studypath := "studies/SampleStudy";
     timecompensation := VBool true; oscclient := VNone |}.

Definition opts : options :=
  {| module := None; autolaunch := false;
     studypath := "studies/SampleStudy";
     timecompensation := VBool true; oscclient := VNone |}.

Definition tick (q : list item) (a : MainApp) : MainApp :=
  (_main_loop_tick env opts (with_queue q a)).2.

(** [demo] loaded from the keyboard, and then started. *)
Definition loaded : MainApp := tick [IStr "load demo"] init.
Definition running : MainApp := tick [IStr "start"] loaded.

End Demo.

(** ** Reasoning rules *)

Lemma wp_bind {A B} (c : py A) (k : A -> py B) Q E a :
  wp c (fun x => wp (k x) Q E) E a -> wp (bind c k) Q E a.
Proof. unfold wp, bind. destruct (c a) as [[x|e] a']; auto. Qed.

Lemma wp_try_except {A} (c : py A) (handles : exn -> bool)
    (h : exn -> py A) Q E a :
  wp c Q (fun e a' => if handles e then wp (h e) Q E a' else E e a') a ->
  wp (try_except c handles h) Q E a.
Proof.
  unfold wp, try_except. destruct (c a) as [[x|e] a']; auto.
  destruct (handles e); auto.
Qed.

Lemma calls_app (t1 t2 : list event) : calls (t1 ++ t2) = calls t1 ++ calls t2.
Proof.
  induction t1 as [|e t1 IH]; simpl; [reflexivity|].
  destruct e; simpl; rewrite ?IH; reflexivity.
Qed.

Lemma gets_app (t1 t2 : list event) : gets (t1 ++ t2) = gets t1 ++ gets t2.
Proof.
  induction t1 as [|e t1 IH]; simpl; [reflexivity|].
  destruct e; simpl; rewrite ?IH; reflexivity.
Qed.

Lemma logs_app (t1 t2 : list event) : logs (t1 ++ t2) = logs t1 ++ logs t2.
Proof.
  induction t1 as [|e t1 IH]; simpl; [reflexivity|].
  destruct e; simpl; rewrite ?IH; reflexivity.
Qed.

Lemma wp_mono {A} (c : py A) (Q Q' : A -> MainApp -> Prop)
    (E E' : exn -> MainApp -> Prop) a :
  wp c Q E a ->
  (forall x a', Q x a' -> Q' x a') ->
  (forall e a', E e a' -> E' e a') ->
  wp c Q' E' a.
Proof. unfold wp. destruct (c a) as [[x|e] a']; auto. Qed.

Lemma wp_ret {A} (x : A) (Q : A -> MainApp -> Prop) E a :
  Q x a -> wp (ret x) Q E a.
Proof. exact id. Qed.

Lemma wp_raise {A} (e : exn) (Q : A -> MainApp -> Prop)
    (E : exn -> MainApp -> Prop) a :
  E e a -> wp (raise e) Q E a.
Proof. exact id. Qed.

Lemma wp_get {A} (f : MainApp -> A) (Q : A -> MainApp -> Prop) E a :
  Q (f a) a -> wp (get f) Q E a.
Proof. exact id. Qed.

Lemma wp_modify (f : MainApp -> MainApp) (Q : unit -> MainApp -> Prop) E a :
  Q tt (f a) -> wp (modify f) Q E a.
Proof. exact id. Qed.

Lemma wp_emit (e : event) (Q : unit -> MainApp -> Prop) E a :
  Q tt (with_event e a) -> wp (emit e) Q E a.
Proof. exact id. Qed.

Lemma wp_print (l : log_msg) (Q : unit -> MainApp -> Prop) E a :
  Q tt (with_event (ELog l) a) -> wp (print l) Q E a.
Proof. exact id. Qed.

Section Rules.

Variable W : world.
Variable opts : options.

Lemma wp_call i m (Q : unit -> MainApp -> Prop)
    (E : exn -> MainApp -> Prop) a :
  match w_call W (trace a) i m with
  | None => Q tt (with_event (ECall i m) a)
  | Some e => E e (with_event (ECall i m) a)
  end ->
  wp (call W i m) Q E a.
Proof. unfold wp, call. destruct (w_call W (trace a) i m); exact id. Qed.

Lemma wp_import name (Q : pymodule -> MainApp -> Prop)
    (E : exn -> MainApp -> Prop) a :
  match w_import W (trace a) name with
  | inr m => Q m (with_event (EImport name) a)
  | inl e => E e (with_event (EImport name) a)
  end ->
  wp (import_ W name) Q E a.
Proof. unfold wp, import_. destruct (w_import W (trace a) name); exact id. Qed.

Lemma wp_path_exists path (Q : bool -> MainApp -> Prop) E a :
  Q (w_exists W (trace a) path) (with_event (EExists path) a) ->
  wp (path_exists W path) Q E a.
Proof. exact id. Qed.

Lemma wp_open path (Q : list string -> MainApp -> Prop)
    (E : exn -> MainApp -> Prop) a :
  match w_open W (trace a) path with
  | inr l => Q l (with_event (EOpen path) a)
  | inl e => E e (with_event (EOpen path) a)
  end ->
  wp (open_ W path) Q E a.
Proof. unfold wp, open_. destruct (w_open W (trace a) path); exact id. Qed.

Lemma wp_new_Main m (Q : inst -> MainApp -> Prop)
    (E : exn -> MainApp -> Prop) a :
  match w_Main W (trace a) m with
  | inr d =>
      Q (fresh (dom (heap a)))
        (with_event (ENew (fresh (dom (heap a))))
           (with_event (EMain m)
              (with_heap (<[fresh (dom (heap a)) := d]> (heap a)) a)))
  | inl e => E e (with_event (EMain m) a)
  end ->
  wp (new_Main W m) Q E a.
Proof. unfold wp, new_Main. destruct (w_Main W (trace a) m); exact id. Qed.

Lemma wp_exec code i (Q : unit -> MainApp -> Prop)
    (E : exn -> MainApp -> Prop) a :
  (forall d r,
     w_exec W (trace a) code (default ∅ (heap a !! i)) = (d, r) ->
     match r with
     | None =>
         Q tt (with_event (EExec code i) (with_heap (<[i := d]> (heap a)) a))
     | Some e =>
         E e (with_event (EExec code i) (with_heap (<[i := d]> (heap a)) a))
     end) ->
  wp (exec_ W code i) Q E a.
Proof.
  intros H. unfold wp, exec_.
  destruct (w_exec W (trace a) code (default ∅ (heap a !! i))) as [d r] eqn:X.
  specialize (H d r eq_refl). destruct r; exact H.
Qed.

Lemma wp_setattr i key v (Q : unit -> MainApp -> Prop) E a :
  Q tt (with_heap (<[i := <[key := v]> (default ∅ (heap a !! i))]> (heap a)) a) ->
  wp (setattr i key v) Q E a.
Proof. exact id. Qed.

Lemma wp_the_instance (Q : inst -> MainApp -> Prop)
    (E : exn -> MainApp -> Prop) a :
  match _instance a with
  | Some i => Q i a
  | None => E AttributeError a
  end ->
  wp the_instance Q E a.
Proof. unfold wp, the_instance, bind, get. destruct (_instance a); exact id. Qed.

End Rules.

(** One step of symbolic execution of a [wp] goal. *)
Ltac wp_step :=
  lazymatch goal with
  | |- wp (bind _ _) _ _ _ => apply wp_bind
  | |- wp (try_except _ _ _) _ _ _ => apply wp_try_except
  | |- wp (ret _) _ _ _ => apply wp_ret
  | |- wp (raise _) _ _ _ => apply wp_raise
  | |- wp (get _) _ _ _ => apply wp_get
  | |- wp (modify _) _ _ _ => apply wp_modify
  | |- wp (emit _) _ _ _ => apply wp_emit
  | |- wp (print _) _ _ _ => apply wp_print
  | |- wp set_defaults _ _ _ => apply wp_emit
  | |- wp (call _ _ _) _ _ _ => apply wp_call
  | |- wp (import_ _ _) _ _ _ => apply wp_import
  | |- wp (path_exists _ _) _ _ _ => apply wp_path_exists
  | |- wp (open_ _ _) _ _ _ => apply wp_open
  | |- wp (new_Main _ _) _ _ _ => apply wp_new_Main
  | |- wp (exec_ _ _ _) _ _ _ => apply wp_exec; intros ? ? ?
  | |- wp (setattr _ _ _) _ _ _ => apply wp_setattr
  | |- wp the_instance _ _ _ => apply wp_the_instance
  | |- wp (match ?x with _ => _ end) _ _ _ => destruct x eqn:?
  | |- match ?x with _ => _ end => destruct x eqn:?
  | |- (if ?x then _ else _) => destruct x eqn:?
  end.

Ltac norm :=
  cbn [_module _instance _executing _remote_commands heap trace
       with_module with_instance with_executing with_queue with_heap
       with_event fst snd] in *.

Ltac wp_steps := repeat (wp_step; norm; try congruence).

(** What a computation does, read off its [wp]. *)
Lemma wp_run {A} (c : py A) Q E a :
  wp c Q E a ->
  match (c a).1 with
  | Normal x => Q x (c a).2
  | Raised e => E e (c a).2
  end.
Proof. unfold wp. destruct (c a) as [[x|e] a']; exact id. Qed.

(** A computation that returns [x0] with [P], read off its [wp]. *)
Lemma wp_returns {A} (c : py A) (x0 : A) (P : MainApp -> Prop) a :
  wp c (fun x a' => x = x0 /\ P a') (fun _ _ => False) a ->
  (c a).1 = Normal x0 /\ P (c a).2.
Proof.
  unfold wp. destruct (c a) as [[x|e] a']; simpl; [|tauto].
  intros [-> H]. auto.
Qed.

(** ** The [setup] command *)

Lemma dispatch_setup (W : world) (opts : options) (code : string) :
  dispatch W opts ("setup " +:+ code) =
  try_except (bind (the_instance) (fun i => exec_ W code i))
    (fun _ => true) (fun _ => ret tt).
Proof. reflexivity. Qed.

(** C10: a [setup] command returns normally whatever the assignment does,
    also when no instance is loaded, and leaves the module, the instance,
    the executing flag and the queue as they were, without a call on any
    instance. *)
Theorem setup_never_raises (W : world) (opts : options) (code : string)
    (a : MainApp) :
  let r := dispatch W opts ("setup " +:+ code) a in
  r.1 = Normal tt /\
  _module r.2 = _module a /\
  _instance r.2 = _instance a /\
  _executing r.2 = _executing a /\
  _remote_commands r.2 = _remote_commands a /\
  calls (trace r.2) = calls (trace a).
Proof.
  cbv zeta. rewrite dispatch_setup.
  apply (wp_returns _ tt (fun a' =>
    _module a' = _module a /\ _instance a' = _instance a /\
    _executing a' = _executing a /\
    _remote_commands a' = _remote_commands a /\
    calls (trace a') = calls (trace a))).
  wp_steps; simpl; rewrite ?calls_app, ?app_nil_r; auto 10.
Qed.

(** ** The [start] command *)

Lemma wp_start_running (W : world) (opts : options) (a : MainApp) (i : inst) :
  _instance a = Some i ->
  _executing a = true ->
  wp (dispatch W opts "start")
    (fun _ a' =>
       calls (trace a') = calls (trace a) ++ [(i, MCancel); (i, MStart)] /\
       session_state a' = Running)
    (fun _ a' =>
       calls (trace a') = calls (trace a) ++ [(i, MCancel)] \/
       calls (trace a') = calls (trace a) ++ [(i, MCancel); (i, MStart)])
    a.
Proof.
  intros Hi Hx. change (dispatch W opts "start") with (start_module W).
  unfold start_module, cancel_module, session_state.
  wp_steps; simplify_eq; rewrite ?Hi;
    repeat (rewrite ?calls_app; simpl); rewrite ?app_nil_r, <- ?app_assoc;
    simpl; auto.
  match goal with H : _instance a = Some _ |- _ => rewrite H end. auto.
Qed.

(** C4: a [start] command in the Running state calls [cancel()] once on
    the instance and then [start()] once on it; [start()] is left out only
    when that [cancel()] raised, and a normal return leaves the session
    Running. *)
Theorem start_while_running_cancels_first (W : world) (opts : options)
    (a : MainApp) (i : inst) :
  session_state a = Running ->
  _instance a = Some i ->
  let r := dispatch W opts "start" a in
  exists rest,
    calls (trace r.2) = calls (trace a) ++ (i, MCancel) :: rest /\
    (rest = [(i, MStart)] \/ rest = [] /\ exists e, r.1 = Raised e) /\
    (r.1 = Normal tt -> rest = [(i, MStart)] /\ session_state r.2 = Running).
Proof.
  intros Hs Hi r.
  assert (Hx : _executing a = true).
  { unfold session_state in Hs. rewrite Hi in Hs.
    destruct (_executing a); [reflexivity | discriminate]. }
  pose proof (wp_run _ _ _ _ (wp_start_running W opts a i Hi Hx)) as H.
  fold r in H. destruct (r.1) as [[]|e].
  - destruct H as [Hc Hr]. exists [(i, MStart)]. auto.
  - destruct H as [Hc|Hc].
    + exists []. split; [exact Hc|]. split; [right; eauto | discriminate].
    + exists [(i, MStart)]. split; [exact Hc|]. split; [auto | discriminate].
Qed.

(** ** The [prune] command *)



(** ** An empty [load] *)

Section Frames.

Variable W : world.
Variable opts : options.

(** What [exec] may touch: the heap, and the trace by an [EExec]. *)
Lemma exec_lines_frame (I : MainApp -> Prop) (lines : list string) :
  (forall a h, I a -> I (with_heap h a)) ->
  (forall a code i, I a -> I (with_event (EExec code i) a)) ->
  forall a, I a ->
  wp (exec_lines W lines) (fun _ => I) (fun _ => I) a.
Proof.
  intros Hh He. induction lines as [|line rest IH]; intros a Ha; simpl.
  - apply wp_ret, Ha.
  - wp_steps; auto.
Qed.

Lemma same_session_refl a : same_session a a.
Proof. unfold same_session. auto. Qed.


Lemma same_session_queue a a' q :
  same_session a a' -> same_session a (with_queue q a').
Proof. exact id. Qed.

Lemma same_session_event a a' e :
  (forall i m, e <> ECall i m) ->
  same_session a a' -> same_session a (with_event e a').
Proof.
  unfold same_session. intros He (Hm & Hi & Hx & Hc). norm.
  rewrite calls_app. repeat split; auto.
  destruct e; simpl; rewrite ?app_nil_r; auto.
  exfalso. eapply He. reflexivity.
Qed.


End Frames.


(** ** The [config] command *)

Lemma dispatch_config (W : world) (opts : options) (name : string) :
  dispatch W opts ("config " +:+ name) =
  if negb (Py.endswith ("config " +:+ name) ".cfg")
  then load_config W opts (name +:+ ".cfg")
  else load_config W opts name.
Proof. reflexivity. Qed.

(** The file a [config] command asks for: [.cfg] is added to a command
    that does not end with it. *)
Lemma dispatch_config_file (W : world) (opts : options) (name file : string) :
  file = (if Py.endswith ("config " +:+ name) ".cfg" then name
          else name +:+ ".cfg") ->
  dispatch W opts ("config " +:+ name) = load_config W opts file.
Proof.
  intros ->. rewrite dispatch_config.
  destruct (Py.endswith ("config " +:+ name) ".cfg"); reflexivity.
Qed.

Ltac rewrite_world :=
  repeat match goal with
    | H : forall tr : list event, _ = _ |- _ => rewrite H
    end.

Section Config.

Variable W : world.
Variable opts : options.

Lemma wp_load_config_missing (file : string) (a : MainApp) :
  (forall tr, w_exists W tr file = false) ->
  (forall tr, w_exists W tr (Py.path_join (studypath opts) file) = false) ->
  wp (load_config W opts file)
    (fun _ a' =>
       _module a' = _module a /\ _instance a' = _instance a /\
       _executing a' = _executing a /\ heap a' = heap a /\
       _remote_commands a' = _remote_commands a /\
       calls (trace a') = calls (trace a) /\
       logs (trace a') =
         logs (trace a) ++
         [LAttemptConfig file; LFileNotFound file (studypath opts)])
    (fun _ _ => False) a.
Proof.
  intros H1 H2. unfold load_config.
  repeat (first [progress rewrite_world | wp_step]; norm).
  repeat (rewrite ?calls_app, ?logs_app; simpl).
  rewrite ?app_nil_r, <- ?app_assoc. simpl. auto 10.
Qed.

End Config.

(** C6: a [config] command whose file is found neither in the working
    directory nor under the study path prints that it was not found and
    returns: module, instance, executing flag, heap and queue are as
    before, and no method of an instance is called. *)
Theorem config_missing_is_noop (W : world) (opts : options)
    (name file : string) (a : MainApp) :
  file = (if Py.endswith ("config " +:+ name) ".cfg" then name
          else name +:+ ".cfg") ->
  (forall tr, w_exists W tr file = false) ->
  (forall tr, w_exists W tr (Py.path_join (studypath opts) file) = false) ->
  let r := dispatch W opts ("config " +:+ name) a in
  r.1 = Normal tt /\
  _module r.2 = _module a /\
  _instance r.2 = _instance a /\
  _executing r.2 = _executing a /\
  heap r.2 = heap a /\
  _remote_commands r.2 = _remote_commands a /\
  calls (trace r.2) = calls (trace a) /\
  logs (trace r.2) =
    logs (trace a) ++ [LAttemptConfig file; LFileNotFound file (studypath opts)].
Proof.
  intros Hf H1 H2 r. subst r. rewrite (dispatch_config_file W opts name file Hf).
  pose proof (wp_run _ _ _ _ (wp_load_config_missing W opts file a H1 H2)) as H.
  destruct (load_config W opts file a) as [[[]|e] a']; simpl in *; tauto.
Qed.

(** ** Loading a module *)

Section Load.

Variable W : world.
Variable opts : options.

Lemma wp_prune_module (a : MainApp) :
  wp (prune_module W)
    (fun _ a' =>
       _module a' = _module a /\ _instance a' = _instance a /\
       _executing a' = _executing a /\ heap a' = heap a /\
       _remote_commands a' = _remote_commands a /\
       calls (trace a') = calls (trace a) ++ prior_prune a)
    (fun e a' =>
       (exists tr i, w_call W tr i MPrune = Some e /\ is_Exception e = false) /\
       _module a' = _module a /\ _instance a' = _instance a /\
       _executing a' = _executing a /\ heap a' = heap a /\
       _remote_commands a' = _remote_commands a /\
       calls (trace a') = calls (trace a) ++ prior_prune a)
    a.
Proof.
  unfold prune_module, prior_prune.
  wp_steps; simplify_eq;
    repeat (rewrite ?calls_app; simpl); rewrite ?app_nil_r; eauto 12.
Qed.

Lemma wp_load_module_ok (name : string) (m : pymodule) (d0 : dict)
    (a : MainApp) :
  name <> ""%string ->
  (forall tr, w_import W tr name = inr m) ->
  (forall tr, w_Main W tr m = inr d0) ->
  (forall tr i e, w_call W tr i MPrune = Some e -> is_Exception e = true) ->
  wp (load_module W opts name)
    (fun _ a' =>
       _module a' = Some m /\
       _instance a' = Some (fresh (dom (heap a))) /\
       _executing a' = _executing a /\
       heap a' = <[fresh (dom (heap a)) := fitted opts d0]> (heap a) /\
       calls (trace a') = calls (trace a) ++ prior_prune a)
    (fun _ _ => False) a.
Proof.
  intros Hn Himp Hmain Hprune. unfold load_module.
  destruct name as [|c name]; [congruence|]. cbn [String.length Nat.ltb Nat.leb].
  apply wp_bind, wp_print, wp_bind, wp_get. norm.
  apply wp_bind.
  eapply wp_mono with
    (Q := fun _ a' =>
       _instance a' = _instance a /\ _executing a' = _executing a /\
       heap a' = heap a /\ calls (trace a') = calls (trace a) ++ prior_prune a)
    (E := fun _ _ => False).
  { destruct (_instance a) as [i0|] eqn:Hi.
    - eapply wp_mono; [apply wp_prune_module | |]; cbn beta; norm.
      + intros _ a' (_ & H1 & H2 & H3 & _ & H4).
        unfold prior_prune in *. norm. rewrite Hi in *.
        rewrite calls_app, app_nil_r in H4. auto.
      + intros e a' ((tr & j & Hc & He) & _).
        apply Hprune in Hc. congruence.
    - apply wp_ret. unfold prior_prune. norm. rewrite Hi, calls_app.
      simpl. rewrite !app_nil_r. auto. }
  2: { tauto. }
  cbn beta. intros _ a1 (Hi1 & Hx1 & Hh1 & Hc1).
  unfold import_module.
  repeat (first [progress rewrite_world | wp_step]; norm);
    simplify_eq; rewrite ?Hh1.
  repeat (rewrite ?calls_app; simpl). rewrite ?app_nil_r.
  unfold fitted. rewrite !lookup_insert_eq. simpl.
  rewrite !insert_insert_eq. auto 10.
Qed.


End Load.

Section ConfigLoad.

Variable W : world.
Variable opts : options.


End ConfigLoad.


(** ** A [load] that fails *)

Section LoadFails.

Variable W : world.
Variable opts : options.

Lemma wp_load_module_fail (name : string) (f : load_failure) (a : MainApp) :
  name <> ""%string ->
  fails W name f ->
  (forall tr i e, w_call W tr i MPrune = Some e -> is_Exception e = true) ->
  wp (load_module W opts name) (fun _ _ => False)
    (fun e a' =>
       _remote_commands a' = _remote_commands a /\ failed_load name f a e a')
    a.
Proof.
  intros Hn Hf Hprune. unfold load_module.
  destruct name as [|c name]; [congruence|]. cbn [String.length Nat.ltb Nat.leb].
  apply wp_bind, wp_print, wp_bind, wp_get. norm.
  apply wp_bind.
  eapply wp_mono with
    (Q := fun _ a' =>
       _module a' = _module a /\
       _instance a' = _instance a /\ _executing a' = _executing a /\
       heap a' = heap a /\ _remote_commands a' = _remote_commands a /\
       calls (trace a') = calls (trace a) ++ prior_prune a)
    (E := fun _ _ => False).
  { destruct (_instance a) as [i0|] eqn:Hi.
    - eapply wp_mono; [apply wp_prune_module | |]; cbn beta; norm.
      + intros _ a' (H0 & H1 & H2 & H3 & Hq & H4).
        unfold prior_prune in *. norm. rewrite Hi in *.
        rewrite calls_app, app_nil_r in H4. auto 10.
      + intros e a' ((tr & j & Hc & He) & _).
        apply Hprune in Hc. congruence.
    - apply wp_ret. unfold prior_prune. norm. rewrite Hi, calls_app.
      simpl. rewrite !app_nil_r. auto 10. }
  2: { intros ? ? []. }
  cbn beta. intros _ a1 (Hm1 & Hi1 & Hx1 & Hh1 & Hq1 & Hc1).
  unfold import_module, search_locally, failed_load.
  destruct f as [|m]; simpl in Hf.
  - repeat (first [progress rewrite_world | wp_step]; norm); simplify_eq;
      repeat (rewrite ?calls_app, ?logs_app; simpl); rewrite ?app_nil_r;
      repeat split; auto; apply in_or_app; right; simpl; auto.
  - destruct Hf as [Himp Hmain].
    repeat (first [progress rewrite_world | wp_step]; norm); simplify_eq;
      match goal with
      | H : w_Main W ?tr m = _ |- _ =>
          destruct (Hmain tr) as (e' & He1 & He2); rewrite He1 in H;
          simplify_eq
      end;
      repeat (rewrite ?calls_app; simpl); rewrite ?app_nil_r; auto 10.
Qed.

(** An exception other than [queue.Empty] that the first command of a
    frame raises leaves [_main_loop_tick]: the loop stops there, the
    module is not ticked and the lock is not taken back. *)
Lemma wp_tick_head_raises (x : item) (q : list item) (a : MainApp)
    (E : exn -> MainApp -> Prop) :
  wp (dispatch W opts (Py.strip (py_str x))) (fun _ _ => False)
    (fun e a' => is_QueueEmpty e = false /\ E e a')
    (with_event (EGet x) (with_queue q (with_event ELockRelease a))) ->
  wp (_main_loop_tick W opts) (fun _ _ => False) E (with_queue (x :: q) a).
Proof.
  intros H. unfold _main_loop_tick, main_loop_tick_during.
  apply wp_bind, wp_emit, wp_bind, wp_try_except, wp_bind, wp_get. norm.
  cbn [drain_during drain]. unfold take.
  apply wp_bind, wp_bind, wp_modify, wp_bind, wp_emit.
  eapply wp_mono; [exact H | intros ? ? [] |].
  cbn beta. intros e a' [He HE]. rewrite He. exact HE.
Qed.

End LoadFails.

(** C3, as the code has it: a [load] command whose module is not found, or
    whose [Main()] raises, makes the frame tick raise: the commands behind
    it stay on the queue.  A prior instance has then been pruned; the
    instance and the executing flag are as before; when the module was not
    found this was printed, and the current module and the heap are as
    before too, while a [Main()] that raises leaves the new module in
    place. *)
Theorem failed_load_leaves_the_tick (W : world) (opts : options)
    (name : string) (f : load_failure) (x : item) (q : list item)
    (a : MainApp) :
  name <> ""%string ->
  Py.strip (py_str x) = "load " +:+ name ->
  fails W name f ->
  (forall tr i e, w_call W tr i MPrune = Some e -> is_Exception e = true) ->
  let t := _main_loop_tick W opts (with_queue (x :: q) a) in
  exists e,
    t.1 = Raised e /\
    _remote_commands t.2 = q /\
    failed_load name f a e t.2.
Proof.
  intros Hn Hx Hf Hprune t.
  assert (H : wp (_main_loop_tick W opts) (fun _ _ => False)
            (fun e a' => _remote_commands a' = q /\ failed_load name f a e a')
            (with_queue (x :: q) a)).
  { apply wp_tick_head_raises. rewrite Hx.
    change (dispatch W opts ("load " +:+ name)) with (load_module W opts name).
    eapply wp_mono; [apply (wp_load_module_fail W opts name f); auto | auto |].
    cbn beta. unfold failed_load, prior_prune. norm.
    intros e a' (H0 & H1 & H2 & H3 & H4 & H5).
    rewrite !calls_app in H4. simpl in H4. rewrite !app_nil_r in H4.
    auto 10. }
  apply wp_run in H. fold t in H. destruct (t.1) as [u|e]; [contradiction|].
  exists e. tauto.
Qed.

(** ** Invariants of the session controller

    A property [I] of the application that survives the steps the methods
    are made of survives every command.  Calls are made on the current
    instance only, and an instance becomes current right after the
    [Main()] that made it: [I] may rely on both. *)

Section Stable.

Variable W : world.
Variable opts : options.
Variable I : MainApp -> Prop.

Hypothesis I_event :
  forall e a, is_call_or_get e = false -> I a -> I (with_event e a).
Hypothesis I_call :
  forall i m a, _instance a = Some i -> I a -> I (with_event (ECall i m) a).
Hypothesis I_heap : forall h a, I a -> I (with_heap h a).
Hypothesis I_module : forall m a, I a -> I (with_module m a).
Hypothesis I_executing : forall b a, I a -> I (with_executing b a).
Hypothesis I_instance :
  forall i a, In (ENew i) (trace a) -> I a -> I (with_instance (Some i) a).

Ltac leaf :=
  repeat first
    [ assumption
    | apply I_event; [reflexivity|]
    | apply I_call; [norm; congruence|]
    | apply I_heap
    | apply I_module
    | apply I_executing
    | apply I_instance;
      [norm; rewrite ?in_app_iff; simpl; auto|] ].

Ltac use_kept H :=
  eapply wp_mono; [apply H | cbn beta; intros | cbn beta; intros].

Lemma keeps_prune_module : keeps I (prune_module W).
Proof. intros a Ha. unfold prune_module. wp_steps; leaf. Qed.

Lemma keeps_cancel_module : keeps I (cancel_module W).
Proof. intros a Ha. unfold cancel_module. wp_steps; leaf. Qed.

Lemma keeps_start_module : keeps I (start_module W).
Proof.
  intros a Ha. unfold start_module.
  apply wp_bind, wp_get. norm.
  destruct (_instance a) eqn:Hi; [|apply wp_ret; assumption].
  apply wp_bind. use_kept keeps_cancel_module; [assumption| |assumption].
  wp_steps; leaf.
Qed.

Lemma keeps_load_module name : keeps I (load_module W opts name).
Proof.
  intros a Ha. unfold load_module.
  destruct (0 <? String.length name); [|apply wp_ret; assumption].
  apply wp_bind, wp_print, wp_bind, wp_get. norm. apply wp_bind.
  eapply wp_mono with (Q := fun _ => I) (E := fun _ => I).
  { destruct (_instance a).
    - apply keeps_prune_module. leaf.
    - apply wp_ret. leaf. }
  2: { auto. }
  cbn beta. intros _ a1 Ha1.
  unfold import_module, search_locally. wp_steps; leaf.
Qed.

Lemma keeps_exec_lines lines : keeps I (exec_lines W lines).
Proof.
  intros a Ha. apply exec_lines_frame; auto.
Qed.

Lemma keeps_load_config name : keeps I (load_config W opts name).
Proof.
  intros a Ha. unfold load_config.
  repeat match goal with
    | |- wp (load_module _ _ _) _ _ _ =>
        use_kept keeps_load_module; [leaf | |]
    | |- wp (exec_lines _ _) _ _ _ =>
        use_kept keeps_exec_lines; [leaf | |]
    | |- forall _, _ => intros
    | _ => wp_step; norm
    end; leaf.
Qed.

Lemma keeps_dispatch cmd : keeps I (dispatch W opts cmd).
Proof.
  intros a Ha. unfold dispatch.
  repeat match goal with
    | |- wp (start_module _) _ _ _ => apply keeps_start_module
    | |- wp (cancel_module _) _ _ _ => apply keeps_cancel_module
    | |- wp (prune_module _) _ _ _ => apply keeps_prune_module
    | |- wp (load_module _ _ _) _ _ _ => apply keeps_load_module
    | |- wp (load_config _ _ _) _ _ _ => apply keeps_load_config
    | |- wp (if ?b then _ else _) _ _ _ => destruct b
    | _ => wp_step; norm
    end; leaf.
Qed.

Lemma keeps_tick_module : keeps I (tick_module W).
Proof. intros a Ha. unfold tick_module. wp_steps; leaf. Qed.

(** *** The loops, for an [I] that also survives the queue *)

Hypothesis I_queue : forall q a, I a -> I (with_queue q a).
Hypothesis I_get : forall x a, I a -> I (with_event (EGet x) a).

Lemma keeps_take x rest : keeps I (take W opts x rest).
Proof.
  intros a Ha. unfold take.
  apply wp_bind, wp_modify, wp_bind, wp_emit, keeps_dispatch.
  apply I_get, I_queue, Ha.
Qed.

Lemma keeps_drain q : keeps I (drain W opts q).
Proof.
  induction q as [|x q IH]; intros a Ha; simpl.
  - apply wp_raise, Ha.
  - apply wp_bind. use_kept keeps_take; auto.
Qed.

Lemma keeps_drain_during arrivals : forall q, keeps I (drain_during W opts arrivals q).
Proof.
  induction arrivals as [|new arrivals IH]; intros q a Ha; simpl.
  - apply keeps_drain, Ha.
  - destruct q as [|x q]; [apply wp_raise, Ha|].
    apply wp_bind. use_kept keeps_take; auto. apply IH. assumption.
Qed.

Lemma keeps_main_loop_tick_during arrivals :
  keeps I (main_loop_tick_during W opts arrivals).
Proof.
  intros a Ha. unfold main_loop_tick_during.
  apply wp_bind, wp_emit, wp_bind.
  eapply wp_mono with (Q := fun _ => I) (E := fun _ => I); [ | | auto].
  { apply wp_try_except, wp_bind, wp_get.
    use_kept keeps_drain_during; [leaf | assumption |].
    destruct (is_QueueEmpty e); [apply wp_ret|]; assumption. }
  cbn beta. intros _ a1 Ha1.
  apply wp_bind. use_kept keeps_tick_module; [assumption | | assumption].
  apply wp_emit. leaf.
Qed.

Lemma keeps_main_loop frames : keeps I (main_loop W opts frames).
Proof.
  induction frames as [|new frames IH]; intros a Ha; simpl.
  - apply wp_ret, Ha.
  - apply wp_bind, wp_modify, wp_bind, wp_emit, wp_bind.
    use_kept keeps_main_loop_tick_during; [| |assumption].
    + apply I_event; [reflexivity|]. apply I_queue, Ha.
    + apply wp_bind, wp_emit, IH. leaf.
Qed.

Lemma keeps_MainApp_init : keeps I (MainApp_init W opts).
Proof.
  intros a Ha. unfold MainApp_init. apply wp_bind.
  eapply wp_mono with (Q := fun _ => I) (E := fun _ => I); [ | | auto].
  { destruct (module opts) as [name|]; [|apply wp_ret, Ha].
    destruct (Py.endswith name ".cfg");
      [apply keeps_load_config | apply keeps_load_module]; exact Ha. }
  cbn beta. intros _ a1 Ha1.
  destruct (autolaunch opts);
    [apply keeps_start_module | apply wp_ret]; exact Ha1.
Qed.

Lemma keeps_snap_main frames : keeps I (snap_main W opts frames).
Proof.
  intros a Ha. unfold snap_main. apply wp_bind.
  eapply wp_mono with (Q := fun _ => I) (E := fun _ => I); [ | | auto].
  { apply wp_try_except, wp_bind.
    use_kept keeps_MainApp_init; [exact Ha | |].
    - use_kept keeps_main_loop; [assumption | assumption |].
      destruct (is_Exception e); [|assumption]. wp_steps; leaf.
    - destruct (is_Exception e); [|assumption]. wp_steps; leaf. }
  cbn beta. intros _ a1 Ha1. apply wp_print. leaf.
Qed.

End Stable.

(** ** No call on an instance before the load that made it *)

Lemma scoped_snoc (tr : list event) : forall (made : list inst) (e : event),
  scoped made tr = true ->
  (forall i m, e = ECall i m -> In i made \/ In (ENew i) tr) ->
  scoped made (tr ++ [e]) = true.
Proof.
  induction tr as [|e0 tr IH]; intros made e Hs He; simpl.
  - destruct e; try reflexivity.
    destruct (He i m eq_refl) as [Hin|[]].
    rewrite andb_true_r. apply existsb_exists. exists i.
    split; [exact Hin | apply Nat.eqb_refl].
  - destruct e0; simpl in Hs;
      try (apply IH; [exact Hs|]; intros i' m' Hc;
           destruct (He i' m' Hc) as [Hin|[Hin|Hin]];
           [left; exact Hin | discriminate Hin | right; exact Hin]).
    + apply andb_true_iff in Hs as [Hs1 Hs2]. rewrite Hs1. simpl.
      apply IH; [exact Hs2|]. intros i' m' Hc.
      destruct (He i' m' Hc) as [Hin|[Hin|Hin]];
        [left; exact Hin | discriminate Hin | right; exact Hin].
    + apply IH; [exact Hs|]. intros i' m' Hc.
      destruct (He i' m' Hc) as [Hin|[Hin|Hin]].
      * left. right. exact Hin.
      * left. left. congruence.
      * right. exact Hin.
Qed.

Lemma scoped_sound (tr : list event) : forall (made : list inst),
  scoped made tr = true ->
  forall pre i m post, tr = pre ++ ECall i m :: post ->
  In i made \/ In (ENew i) pre.
Proof.
  induction tr as [|e0 tr IH]; intros made Hs pre i m post Heq.
  - destruct pre; discriminate.
  - destruct pre as [|p pre]; simpl in Heq; injection Heq as -> Heq.
    + simpl in Hs. apply andb_true_iff in Hs as [Hs _].
      apply existsb_exists in Hs as (j & Hj & Hij).
      apply Nat.eqb_eq in Hij. subst j. left. exact Hj.
    + destruct p; simpl in Hs;
        try (destruct (IH made Hs pre i m post Heq) as [H|H];
             [left; exact H | right; right; exact H]).
      * apply andb_true_iff in Hs as [_ Hs].
        destruct (IH made Hs pre i m post Heq) as [H|H];
          [left; exact H | right; right; exact H].
      * destruct (IH _ Hs pre i m post Heq) as [[H|H]|H].
        -- right. left. congruence.
        -- left. exact H.
        -- right. right. exact H.
Qed.

Lemma loaded_first_event e a :
  is_call_or_get e = false \/ (exists x, e = EGet x) ->
  loaded_first a -> loaded_first (with_event e a).
Proof.
  intros He [Hs Hi]. split; norm.
  - apply scoped_snoc; [exact Hs|]. intros i m ->.
    destruct He as [He|[x He]]; discriminate.
  - intros i Hj. apply in_or_app. left. auto.
Qed.

Lemma loaded_first_call i m a :
  _instance a = Some i -> loaded_first a ->
  loaded_first (with_event (ECall i m) a).
Proof.
  intros Hj [Hs Hi]. split; norm.
  - apply scoped_snoc; [exact Hs|]. intros i' m' Heq.
    injection Heq as <- <-. right. auto.
  - intros i' Hj'. apply in_or_app. left. auto.
Qed.

Lemma loaded_first_instance i a :
  In (ENew i) (trace a) -> loaded_first a ->
  loaded_first (with_instance (Some i) a).
Proof.
  intros Hin [Hs Hi]. split; norm; [exact Hs|].
  intros i' Heq. injection Heq as <-. exact Hin.
Qed.

Lemma loaded_first_snap_main (W : world) (opts : options)
    (frames : list (list item)) :
  loaded_first (snap_main W opts frames init).2.
Proof.
  assert (H : wp (snap_main W opts frames) (fun _ => loaded_first)
                (fun _ => loaded_first) init).
  { apply keeps_snap_main; try (intros; assumption).
    - intros e a He. apply loaded_first_event. auto.
    - apply loaded_first_call.
    - apply loaded_first_instance.
    - intros x a. apply loaded_first_event. eauto.
    - split; [reflexivity | discriminate]. }
  apply wp_run in H. destruct ((snap_main W opts frames init).1); exact H.
Qed.

(** C5: in every run of the launcher from the initial state, whatever
    arrives on the queue, a call of a method on an instance ([start()]
    among them) comes after the [Main()] of a load made that instance; and
    with no instance, [start], [cancel], [stop] and [prune] touch no
    instance at all. *)
Theorem no_start_before_load (W : world) (opts : options) :
  (forall frames pre i m post,
     trace (snap_main W opts frames init).2 = pre ++ ECall i m :: post ->
     In (ENew i) pre) /\
  (forall a cmd,
     _instance a = None ->
     In cmd ["start"; "cancel"; "stop"; "prune"]%string ->
     let r := dispatch W opts cmd a in
     r.1 = Normal tt /\ trace r.2 = trace a /\ _instance r.2 = None).
Proof.
  split.
  - intros frames pre i m post Heq.
    destruct (loaded_first_snap_main W opts frames) as [Hs _].
    destruct (scoped_sound _ _ Hs pre i m post Heq) as [[]|H]. exact H.
  - intros a cmd Hi Hcmd. simpl in Hcmd.
    destruct Hcmd as [<-|[<-|[<-|[<-|[]]]]]; cbv zeta.
    + change (dispatch W opts "start") with (start_module W).
      unfold start_module, bind, get. rewrite Hi. simpl. auto.
    + change (dispatch W opts "cancel") with (cancel_module W).
      unfold cancel_module, bind, get, modify. rewrite Hi. simpl. auto.
    + change (dispatch W opts "stop") with (cancel_module W).
      unfold cancel_module, bind, get, modify. rewrite Hi. simpl. auto.
    + change (dispatch W opts "prune") with (prune_module W).
      unfold prune_module, bind, get. rewrite Hi. simpl. auto.
Qed.

(** ** The drain of the command queue *)

Section Drain.

Variable W : world.
Variable opts : options.

Lemma gets_event e a :
  is_call_or_get e = false \/ (exists i m, e = ECall i m) ->
  gets (trace (with_event e a)) = gets (trace a).
Proof.
  intros He. norm. rewrite gets_app.
  destruct e; simpl; try apply app_nil_r.
  destruct He as [He|(i & m & He)]; discriminate.
Qed.

(** A command leaves the queue and the record of what was taken alone. *)
Lemma wp_dispatch_queue cmd (q : list item) (g : list item) (a : MainApp) :
  _remote_commands a = q ->
  gets (trace a) = g ->
  wp (dispatch W opts cmd)
    (fun _ a' => _remote_commands a' = q /\ gets (trace a') = g)
    (fun _ a' => _remote_commands a' = q /\ gets (trace a') = g) a.
Proof.
  intros Hq Hg.
  apply (keeps_dispatch W opts
           (fun a' => _remote_commands a' = q /\ gets (trace a') = g));
    try (intros; assumption); [| |auto].
  - intros e a' He [H1 H2]. rewrite gets_event; auto.
  - intros i m a' _ [H1 H2]. rewrite gets_event; eauto.
Qed.

Lemma wp_take x rest (a : MainApp) :
  wp (take W opts x rest)
    (fun _ a' => _remote_commands a' = rest /\
                 gets (trace a') = gets (trace a) ++ [x])
    (fun _ a' => _remote_commands a' = rest /\
                 gets (trace a') = gets (trace a) ++ [x]) a.
Proof.
  unfold take. apply wp_bind, wp_modify, wp_bind, wp_emit.
  apply wp_dispatch_queue; norm; [reflexivity|].
  rewrite gets_app. reflexivity.
Qed.

Lemma drained_none a q arrivals a' :
  _remote_commands a' = q -> gets (trace a') = gets (trace a) ->
  drained a q arrivals a'.
Proof.
  intros Hq Hg. exists []. rewrite Hg, Hq, app_nil_r. simpl.
  rewrite app_nil_r. auto.
Qed.

(** One more command taken before a drain that is accounted for. *)
Lemma drained_step a x q new arrivals a1 a' :
  gets (trace a1) = gets (trace a) ++ [x] ->
  drained a1 (q ++ new) arrivals a' ->
  drained a (x :: q) (new :: arrivals) a'.
Proof.
  intros Hg (taken & Ht & Hc). exists (x :: taken). split.
  - rewrite Ht, Hg, <- app_assoc. reflexivity.
  - simpl. rewrite Hc, <- !app_assoc. reflexivity.
Qed.

Lemma drained_one a x q arrivals a1 :
  gets (trace a1) = gets (trace a) ++ [x] ->
  _remote_commands a1 = q ++ concat (firstn 1 arrivals) ->
  drained a (x :: q) arrivals a1.
Proof. intros Hg Hq. exists [x]. rewrite Hq. auto. Qed.

Lemma wp_drain q : forall a,
  _remote_commands a = q ->
  wp (drain W opts q) (fun _ => drained a q []) (fun _ => drained a q []) a.
Proof.
  induction q as [|x q IH]; intros a Hq; simpl.
  - apply wp_raise, drained_none; auto.
  - apply wp_bind. eapply wp_mono; [apply wp_take | |]; cbn beta.
    + intros _ a1 [Hq1 Hg1].
      eapply wp_mono; [apply (IH a1 Hq1) | |]; cbn beta; intros ? a' Hd.
      * destruct Hd as (taken & Ht & Hc). exists (x :: taken). split.
        -- rewrite Ht, Hg1, <- app_assoc. reflexivity.
        -- simpl. rewrite Hc. destruct taken; simpl; rewrite ?app_nil_r; reflexivity.
      * destruct Hd as (taken & Ht & Hc). exists (x :: taken). split.
        -- rewrite Ht, Hg1, <- app_assoc. reflexivity.
        -- simpl. rewrite Hc. destruct taken; simpl; rewrite ?app_nil_r; reflexivity.
    + intros e a1 [Hq1 Hg1]. apply drained_one; [exact Hg1|].
      simpl. rewrite app_nil_r. exact Hq1.
Qed.

Lemma wp_drain_during arrivals : forall q a,
  _remote_commands a = q ->
  wp (drain_during W opts arrivals q)
    (fun _ => drained a q arrivals) (fun _ => drained a q arrivals) a.
Proof.
  induction arrivals as [|new arrivals IH]; intros q a Hq; simpl.
  - apply wp_drain, Hq.
  - destruct q as [|x q]; [apply wp_raise, drained_none; auto|].
    apply wp_bind. eapply wp_mono; [apply wp_take | |]; cbn beta.
    + intros _ a1 [Hq1 Hg1].
      eapply wp_mono; [apply (IH _ a1 Hq1) | |]; cbn beta; intros ? a' Hd;
        eapply drained_step; eauto.
    + intros e a1 [Hq1 Hg1]. apply drained_one; [exact Hg1|].
      simpl. rewrite app_nil_r. exact Hq1.
Qed.

(** What the frame does after the loop keeps the account. *)
Lemma wp_tick_drained arrivals q (a : MainApp) :
  wp (main_loop_tick_during W opts arrivals)
    (fun _ => drained a q arrivals) (fun _ => drained a q arrivals)
    (with_queue q a).
Proof.
  assert (Hev : forall e a',
            is_call_or_get e = false \/ (exists i m, e = ECall i m) ->
            drained a q arrivals a' -> drained a q arrivals (with_event e a')).
  { intros e a' He (taken & Ht & Hc). exists taken.
    rewrite gets_event; auto. }
  unfold main_loop_tick_during.
  apply wp_bind, wp_emit, wp_bind.
  eapply wp_mono with (Q := fun _ => drained a q arrivals)
                      (E := fun _ => drained a q arrivals); [ | | auto].
  { apply wp_try_except, wp_bind, wp_get. norm.
    eapply wp_mono; [apply wp_drain_during; reflexivity | |]; cbn beta.
    - intros _ a' (taken & Ht & Hc). exists taken.
      rewrite Ht, gets_event; auto.
    - intros e a' (taken & Ht & Hc).
      assert (drained a q arrivals a')
        by (exists taken; rewrite Ht, gets_event; auto).
      destruct (is_QueueEmpty e); [apply wp_ret|]; assumption. }
  cbn beta. intros _ a1 Ha1. apply wp_bind.
  eapply wp_mono;
    [apply (keeps_tick_module W (drained a q arrivals)) | |];
    cbn beta; eauto.
  intros _ a2 Ha2. apply wp_emit. auto.
Qed.



End Drain.


(** ** Lines from the remote-control server *)

Lemma lstrip_by_snoc {A} (sp : A -> bool) (c : A) (l : list A) :
  sp c = false -> exists l', Py.lstrip_by sp (l ++ [c]) = l' ++ [c].
Proof.
  intros Hc. induction l as [|x l IH]; simpl.
  - rewrite Hc. exists []. reflexivity.
  - destruct (sp x); [exact IH|]. exists (x :: l). reflexivity.
Qed.

Lemma strip_keeps_head (c : ascii) (s : string) :
  Py.isspace c = false -> exists s', Py.strip (String c s) = String c s'.
Proof.
  intros Hc. unfold Py.strip, Py.strip_by.
  cbn [list_ascii_of_string Py.lstrip_by]. rewrite Hc.
  cbn [rev].
  destruct (lstrip_by_snoc Py.isspace c (rev (list_ascii_of_string s)) Hc)
    as [l' ->].
  rewrite rev_app_distr. simpl. eexists. reflexivity.
Qed.

(** What the request handler puts on the queue is the [repr] of a
    [bytes] once [str()] is applied to it: it starts with [b] and a quote,
    so it is none of the verbs, and applying it does nothing. *)
Lemma bytes_item_is_inert (W : world) (opts : options) (b : list byte)
    (a : MainApp) :
  dispatch W opts (Py.strip (py_str (IBytes b))) a = (Normal tt, a).
Proof.
  unfold py_str, Py.repr_bytes.
  destruct (strip_keeps_head "b" (String
    (if Py.has_byte 39 b && negb (Py.has_byte 34 b)
     then ascii_of_nat 34 else ascii_of_nat 39)
    (string_of_list_ascii
       (concat (map (Py.repr_byte
          (if Py.has_byte 39 b && negb (Py.has_byte 34 b)
           then ascii_of_nat 34 else ascii_of_nat 39)) b) ++
        [if Py.has_byte 39 b && negb (Py.has_byte 34 b)
         then ascii_of_nat 34 else ascii_of_nat 39]))) eq_refl) as [s' Hs].
  cbv zeta. rewrite Hs. reflexivity.
Qed.

(** Scenario A with the commands put on the queue as [str], as the key
    bindings put them. *)
Lemma scenario_A_from_the_keyboard :
  session_state Demo.running = Running /\
  calls (trace Demo.running) = [(0, MStart); (0, MTick)] /\
  session_state (Demo.tick [IStr "cancel"] Demo.running) = Loaded /\
  calls (trace (Demo.tick [IStr "cancel"] Demo.running)) =
    [(0, MStart); (0, MTick); (0, MCancel)].
Proof. vm_compute. auto. Qed.

(** C2: the lines [load demo] and [start] read from a connection reach the
    queue as [bytes]; the frame loop takes both, compares [b'load demo']
    and [b'start'] with the verbs, and applies neither: the session stays
    Unloaded and no instance is called. *)
Theorem remote_lines_match_no_verb :
  let q := handle [bytes_of "load demo" ++ [x0a]; bytes_of "start" ++ [x0a]] in
  let t := _main_loop_tick Demo.env Demo.opts (with_queue q init) in
  q = [IBytes (bytes_of "load demo"); IBytes (bytes_of "start")] /\
  map (fun x => Py.strip (py_str x)) q = ["b'load demo'"; "b'start'"]%string /\
  t.1 = Normal tt /\
  gets (trace t.2) = q /\
  session_state t.2 = Unloaded /\
  calls (trace t.2) = [].
Proof. vm_compute. auto 10. Qed.

(** ** Runs on the test world *)



Lemma failed_load_is_fatal_counterexample :
  let t := _main_loop_tick Demo.env Demo.opts
             (with_queue [IStr "load nosuch"; IStr "start"] Demo.loaded) in
  let s := snap_main Demo.env Demo.opts
             [[IStr "load nosuch"]; [IStr "load demo"]] init in
  let u := _main_loop_tick Demo.env Demo.opts
             (with_queue [IStr "load broken"] Demo.loaded) in
  t.1 = Raised ModuleNotFoundError /\
  ~ (t.1 = Normal tt) /\
  _remote_commands t.2 = [IStr "start"] /\
  calls (trace t.2) = calls (trace Demo.loaded) ++ [(0, MPrune)] /\
  gets (trace s.2) = [IStr "load nosuch"] /\
  logs (trace s.2) =
    [LImporting "nosuch"; LNotFound "nosuch";
     LMainLoopError ModuleNotFoundError; LTraceback ModuleNotFoundError;
     LTerminating] /\
  u.1 = Raised (OtherException 1) /\
  _module Demo.loaded = Some Demo.demo /\
  ~ (_module u.2 = _module Demo.loaded).
Proof. vm_compute. repeat split; try discriminate; reflexivity. Qed.

Lemma failed_load_witness :
  let t := _main_loop_tick Demo.env Demo.opts
             (with_queue [IStr "load nosuch"; IStr "start"] Demo.loaded) in
  fails Demo.env "nosuch" Unresolved /\
  exists e,
    t.1 = Raised e /\
    _remote_commands t.2 = [IStr "start"] /\
    failed_load "nosuch" Unresolved Demo.loaded e t.2.
Proof.
  assert (Hf : fails Demo.env "nosuch" Unresolved) by (intros tr; reflexivity).
  split; [exact Hf|].
  apply (failed_load_leaves_the_tick Demo.env Demo.opts "nosuch" Unresolved
           (IStr "load nosuch") [IStr "start"] Demo.loaded).
  - discriminate.
  - reflexivity.
  - exact Hf.
  - intros tr i e H. discriminate H.
Defined.

Lemma start_while_running_witness :
  session_state Demo.running = Running /\
  _instance Demo.running = Some 0 /\
  let r := dispatch Demo.env Demo.opts "start" Demo.running in
  exists rest,
    calls (trace r.2) = calls (trace Demo.running) ++ (0, MCancel) :: rest /\
    (rest = [(0, MStart)] \/ rest = [] /\ exists e, r.1 = Raised e) /\
    (r.1 = Normal tt -> rest = [(0, MStart)] /\ session_state r.2 = Running).
Proof.
  assert (Hs : session_state Demo.running = Running) by (vm_compute; reflexivity).
  assert (Hi : _instance Demo.running = Some 0) by (vm_compute; reflexivity).
  split; [exact Hs|]. split; [exact Hi|].
  exact (start_while_running_cancels_first Demo.env Demo.opts Demo.running 0
           Hs Hi).
Defined.

Lemma no_start_before_load_witness :
  In (ENew 0)
    [ELockAcquire; ELockRelease; EGet (IStr "start"); ELockAcquire;
     ELockRelease; ELockAcquire; ELockRelease; EGet (IStr "load demo");
     ELog (LImporting "demo"); ESetDefaults; EImport "demo";
     ELog (LDoneImporting 1); ELog LInstantiating; EMain 1; ENew 0;
     ELog LDone; EGet (IStr "start"); ELog LStarting] /\
  (let r := dispatch Demo.env Demo.opts "start" init in
   r.1 = Normal tt /\ trace r.2 = trace init /\ _instance r.2 = None).
Proof.
  destruct (no_start_before_load Demo.env Demo.opts) as [H1 H2]. split.
  - apply (H1 [[IStr "start"]; [IStr "load demo"; IStr "start"]] _ 0 MStart
             [ELog LDone; ECall 0 MTick; ELockAcquire; ELockRelease;
              ELog LTerminating]).
    vm_compute. reflexivity.
  - apply (H2 init "start"%string); [reflexivity | simpl; auto].
Defined.

Lemma config_missing_witness :
  let r := dispatch Demo.env Demo.opts ("config " +:+ "missing.cfg")
             Demo.running in
  r.1 = Normal tt /\
  _module r.2 = _module Demo.running /\
  _instance r.2 = _instance Demo.running /\
  _executing r.2 = _executing Demo.running /\
  heap r.2 = heap Demo.running /\
  _remote_commands r.2 = _remote_commands Demo.running /\
  calls (trace r.2) = calls (trace Demo.running) /\
  logs (trace r.2) =
    logs (trace Demo.running) ++
    [LAttemptConfig "missing.cfg";
     LFileNotFound "missing.cfg" (studypath Demo.opts)].
Proof.
  apply (config_missing_is_noop Demo.env Demo.opts "missing.cfg" "missing.cfg"
           Demo.running).
  - reflexivity.
  - intros tr. reflexivity.
  - intros tr. reflexivity.
Defined.





(** ** The request handler *)

Lemma lstrip_by_head {A} (sp : A -> bool) (l : list A) x l' :
  Py.lstrip_by sp l = x :: l' -> sp x = false.
Proof.
  induction l as [|y l IH]; simpl; [discriminate|].
  destruct (sp y) eqn:Hy; [exact IH|].
  intros H. injection H as <- _. exact Hy.
Qed.

Lemma lstrip_by_fix {A} (sp : A -> bool) (l : list A) :
  (forall x l', l = x :: l' -> sp x = false) -> Py.lstrip_by sp l = l.
Proof.
  destruct l as [|y l]; [reflexivity|]. intros H. simpl.
  rewrite (H y l eq_refl). reflexivity.
Qed.

Lemma lstrip_by_suffix {A} (sp : A -> bool) (l : list A) :
  exists p, l = p ++ Py.lstrip_by sp l.
Proof.
  induction l as [|y l [p IH]]; simpl; [exists []; reflexivity|].
  destruct (sp y); [|exists []; reflexivity].
  exists (y :: p). simpl. congruence.
Qed.

(** Stripping leaves no white space at either end. *)
Lemma strip_by_ends {A} (sp : A -> bool) (l : list A) :
  (forall x l', Py.strip_by sp l = x :: l' -> sp x = false) /\
  (forall x l', rev (Py.strip_by sp l) = x :: l' -> sp x = false).
Proof.
  unfold Py.strip_by. split; intros x l' H.
  - destruct (lstrip_by_suffix sp (rev (Py.lstrip_by sp l))) as [p Hp].
    apply (f_equal (@rev A)) in Hp. rewrite rev_involutive, rev_app_distr in Hp.
    rewrite H in Hp. simpl in Hp.
    apply (lstrip_by_head sp l x (l' ++ rev p)). exact Hp.
  - rewrite rev_involutive in H. apply (lstrip_by_head _ _ _ _ H).
Qed.

Lemma strip_by_idempotent {A} (sp : A -> bool) (l : list A) :
  Py.strip_by sp (Py.strip_by sp l) = Py.strip_by sp l.
Proof.
  destruct (strip_by_ends sp l) as [H1 H2].
  unfold Py.strip_by at 1.
  rewrite (lstrip_by_fix sp _ H1), (lstrip_by_fix sp _ H2).
  apply rev_involutive.
Qed.

(** X1: a connection ends at its first blank line: whatever the client
    sends after a line that is empty once stripped is never put on the
    queue. *)
Theorem handle_stops_at_blank_line (before after : list (list byte))
    (l : list byte) :
  Py.strip_bytes l = [] ->
  handle (before ++ l :: after) = handle before.
Proof.
  intros Hl. induction before as [|x before IH]; simpl.
  - rewrite Hl. reflexivity.
  - destruct (length (Py.strip_bytes x) =? 0); [reflexivity|].
    rewrite IH. reflexivity.
Qed.

Lemma handle_stops_at_blank_line_witness :
  Py.strip_bytes (bytes_of "  " ++ [x0a]) = [] /\
  handle ([bytes_of "start" ++ [x0a]] ++
          (bytes_of "  " ++ [x0a]) :: [bytes_of "cancel" ++ [x0a]]) =
  handle [bytes_of "start" ++ [x0a]].
Proof.
  split; [reflexivity|].
  apply (handle_stops_at_blank_line [bytes_of "start" ++ [x0a]]
           [bytes_of "cancel" ++ [x0a]] (bytes_of "  " ++ [x0a])).
  reflexivity.
Defined.

(** X2: everything the handler puts on the queue is a [bytes] that is not
    empty and has no white space left at either end, and there is at most
    one item per line read. *)
Theorem handle_queues_stripped_lines (lines : list (list byte)) :
  Forall (fun x => exists b, x = IBytes b /\ b <> [] /\ Py.strip_bytes b = b)
    (handle lines) /\
  length (handle lines) <= length lines.
Proof.
  induction lines as [|l lines [IH1 IH2]]; simpl.
  - split; [constructor | lia].
  - destruct (length (Py.strip_bytes l) =? 0) eqn:Hl; simpl.
    + split; [constructor | lia].
    + split; [|lia]. constructor; [|exact IH1].
      exists (Py.strip_bytes l). split; [reflexivity|]. split.
      * intros H. rewrite H in Hl. discriminate Hl.
      * apply strip_by_idempotent.
Qed.

(** ** What a command can do to the trace *)

Lemma extends_refl a : extends a a.
Proof. split; [reflexivity|]. exists []. rewrite app_nil_r. auto. Qed.

Lemma extends_event a0 a e :
  by_command e = true -> extends a0 a -> extends a0 (with_event e a).
Proof.
  intros He [Hq (evs & Ht & Hf)]. split; [exact Hq|].
  exists (evs ++ [e]). norm. rewrite Ht, <- app_assoc. split; [reflexivity|].
  rewrite forallb_app, Hf. simpl. rewrite He. reflexivity.
Qed.

Lemma extends_trans a0 a1 a2 : extends a0 a1 -> extends a1 a2 -> extends a0 a2.
Proof.
  intros [Hq1 (e1 & Ht1 & Hf1)] [Hq2 (e2 & Ht2 & Hf2)]. split; [congruence|].
  exists (e1 ++ e2). rewrite Ht2, Ht1, <- app_assoc. split; [reflexivity|].
  rewrite forallb_app, Hf1, Hf2. reflexivity.
Qed.

Section Commands.

Variable W : world.
Variable opts : options.
Variable a0 : MainApp.

Lemma extends_heap h a : extends a0 a -> extends a0 (with_heap h a).
Proof. exact id. Qed.

Lemma extends_module m a : extends a0 a -> extends a0 (with_module m a).
Proof. exact id. Qed.

Lemma extends_instance i a : extends a0 a -> extends a0 (with_instance i a).
Proof. exact id. Qed.

Lemma extends_executing b a : extends a0 a -> extends a0 (with_executing b a).
Proof. exact id. Qed.

Ltac grows :=
  repeat first
    [ assumption
    | apply extends_event; [reflexivity|]
    | apply extends_heap
    | apply extends_module
    | apply extends_instance
    | apply extends_executing ].

Lemma extends_prune_module : keeps (extends a0) (prune_module W).
Proof. intros a Ha. unfold prune_module. wp_steps; grows. Qed.

Lemma extends_cancel_module : keeps (extends a0) (cancel_module W).
Proof. intros a Ha. unfold cancel_module. wp_steps; grows. Qed.

Lemma extends_start_module : keeps (extends a0) (start_module W).
Proof.
  intros a Ha. unfold start_module, cancel_module. wp_steps; grows.
Qed.

Lemma extends_load_module name : keeps (extends a0) (load_module W opts name).
Proof.
  intros a Ha. unfold load_module.
  destruct (0 <? String.length name); [|apply wp_ret; assumption].
  apply wp_bind, wp_print, wp_bind, wp_get. norm. apply wp_bind.
  eapply wp_mono with (Q := fun _ => extends a0) (E := fun _ => extends a0).
  { destruct (_instance a).
    - apply extends_prune_module. grows.
    - apply wp_ret. grows. }
  2: { auto. }
  cbn beta. intros _ a1 Ha1.
  unfold import_module, search_locally. wp_steps; grows.
Qed.

Lemma extends_exec_lines lines : keeps (extends a0) (exec_lines W lines).
Proof.
  intros a Ha. apply exec_lines_frame; auto.
  intros a' code i Ha'. apply extends_event; [reflexivity | assumption].
Qed.

Lemma extends_load_config name : keeps (extends a0) (load_config W opts name).
Proof.
  intros a Ha. unfold load_config.
  repeat match goal with
    | |- wp (load_module _ _ _) _ _ _ =>
        eapply wp_mono;
        [apply extends_load_module; grows | cbn beta; intros | cbn beta; intros]
    | |- wp (exec_lines _ _) _ _ _ =>
        eapply wp_mono;
        [apply extends_exec_lines; grows | cbn beta; intros | cbn beta; intros]
    | |- forall _, _ => intros
    | _ => wp_step; norm
    end; grows.
Qed.

Lemma extends_dispatch cmd : keeps (extends a0) (dispatch W opts cmd).
Proof.
  intros a Ha. unfold dispatch.
  repeat match goal with
    | |- wp (start_module _) _ _ _ => apply extends_start_module
    | |- wp (cancel_module _) _ _ _ => apply extends_cancel_module
    | |- wp (prune_module _) _ _ _ => apply extends_prune_module
    | |- wp (load_module _ _ _) _ _ _ => apply extends_load_module
    | |- wp (load_config _ _ _) _ _ _ => apply extends_load_config
    | |- wp (if ?b then _ else _) _ _ _ => destruct b
    | _ => wp_step; norm
    end; grows.
Qed.


End Commands.

(** A property of the trace and the queue that events of commands do not
    change holds after a command when it held before. *)
Lemma wp_dispatch_steady (W : world) (opts : options) (I : MainApp -> Prop)
    cmd (a : MainApp) :
  (forall a1 a2, extends a1 a2 -> I a1 -> I a2) ->
  I a ->
  wp (dispatch W opts cmd) (fun _ => I) (fun _ => I) a.
Proof.
  intros HI Ha.
  eapply wp_mono; [apply (extends_dispatch W opts a cmd a), extends_refl | |];
    cbn beta; intros ? a' He; exact (HI a a' He Ha).
Qed.

Section Steady.

Variable W : world.
Variable opts : options.
Variable I : MainApp -> Prop.

Hypothesis I_extends : forall a1 a2, extends a1 a2 -> I a1 -> I a2.
Hypothesis I_queue : forall q a, I a -> I (with_queue q a).
Hypothesis I_get : forall x a, I a -> I (with_event (EGet x) a).

Lemma steady_take x rest : keeps I (take W opts x rest).
Proof.
  intros a Ha. unfold take.
  apply wp_bind, wp_modify, wp_bind, wp_emit, wp_dispatch_steady; auto.
Qed.

Lemma steady_drain q : keeps I (drain W opts q).
Proof.
  induction q as [|x q IH]; intros a Ha; simpl.
  - apply wp_raise, Ha.
  - apply wp_bind.
    eapply wp_mono; [apply steady_take, Ha | cbn beta; auto | cbn beta; auto].
Qed.

Lemma steady_drain_during arrivals :
  forall q, keeps I (drain_during W opts arrivals q).
Proof.
  induction arrivals as [|new arrivals IH]; intros q a Ha; simpl.
  - apply steady_drain, Ha.
  - destruct q as [|x q]; [apply wp_raise, Ha|].
    apply wp_bind.
    eapply wp_mono; [apply steady_take, Ha | cbn beta | cbn beta; auto].
    intros _ a1 Ha1. apply IH, Ha1.
Qed.

(** The loop of a frame, with its [except queue.Empty]. *)
Lemma steady_loop arrivals :
  keeps I (try_except
             (bind (get _remote_commands) (drain_during W opts arrivals))
             is_QueueEmpty (fun _ => ret tt)).
Proof.
  intros a Ha. apply wp_try_except, wp_bind, wp_get.
  eapply wp_mono; [apply steady_drain_during, Ha | cbn beta; auto |].
  cbn beta. intros e a' Ha'.
  destruct (is_QueueEmpty e); [apply wp_ret|]; assumption.
Qed.

End Steady.

(** ** One [tick()] a frame *)

Lemma ticks_app (t1 t2 : list event) : ticks (t1 ++ t2) = ticks t1 ++ ticks t2.
Proof.
  induction t1 as [|e t1 IH]; simpl; [reflexivity|].
  destruct e as [|i m| | | | | | | | | | | ]; simpl; rewrite ?IH; try reflexivity.
  destruct m; simpl; rewrite ?IH; reflexivity.
Qed.

Lemma ticks_by_command (evs : list event) :
  forallb by_command evs = true -> ticks evs = [].
Proof.
  induction evs as [|e evs IH]; simpl; [reflexivity|].
  intros H. apply andb_true_iff in H as [He H].
  destruct e as [|i m| | | | | | | | | | | ]; simpl; auto.
  destruct m; simpl; auto. discriminate He.
Qed.

Lemma ticks_extends a1 a2 :
  extends a1 a2 -> ticks (trace a2) = ticks (trace a1).
Proof.
  intros [_ (evs & -> & Hf)].
  rewrite ticks_app, (ticks_by_command evs Hf), app_nil_r. reflexivity.
Qed.

(** X12: a frame calls [tick()] at most once, whatever the commands it
    applies: on the instance that is current when the loop has ended, and
    only with the executing flag set.  A frame that returns with the
    session Running has called it. *)
Theorem frame_ticks_at_most_once (W : world) (opts : options)
    (arrivals : list (list item)) (a : MainApp) :
  let t := main_loop_tick_during W opts arrivals a in
  exists l,
    ticks (trace t.2) = ticks (trace a) ++ l /\
    (l = [] \/
     exists i, l = [i] /\ _instance t.2 = Some i /\ _executing t.2 = true) /\
    (t.1 = Normal tt -> session_state t.2 = Running -> l <> []).
Proof.
  intros t.
  assert (H : wp (main_loop_tick_during W opts arrivals)
    (fun _ a' => exists l, ticks (trace a') = ticks (trace a) ++ l /\
       (l = [] /\ session_state a' <> Running \/
        exists i, l = [i] /\ _instance a' = Some i /\ _executing a' = true))
    (fun _ a' => exists l, ticks (trace a') = ticks (trace a) ++ l /\
       (l = [] \/
        exists i, l = [i] /\ _instance a' = Some i /\ _executing a' = true))
    a).
  { unfold main_loop_tick_during. apply wp_bind, wp_emit, wp_bind.
    eapply wp_mono;
      [apply (steady_loop W opts
                (fun a' => ticks (trace a') = ticks (trace a)))
      | cbn beta | cbn beta].
    - intros a1 a2 He H1. rewrite (ticks_extends _ _ He). exact H1.
    - intros q a1 H1. exact H1.
    - intros x a1 H1. norm. rewrite ticks_app, H1. apply app_nil_r.
    - norm. rewrite ticks_app. apply app_nil_r.
    - intros _ a1 H1. unfold tick_module, session_state.
      wp_steps; simplify_eq; norm;
        rewrite ?ticks_app, ?H1; simpl; rewrite ?app_nil_r;
        lazymatch goal with
        | Hi : _instance a1 = Some ?i, Hx : _executing a1 = true |- _ =>
            exists [i]; eauto 10
        | Hi : _instance a1 = _ |- _ =>
            exists []; rewrite app_nil_r; split; [reflexivity|]; left;
            split; [reflexivity|]; rewrite Hi;
            try match goal with Hx : _executing a1 = _ |- _ => rewrite Hx end;
            discriminate
        end.
    - intros e a1 H1. exists []. rewrite app_nil_r. auto. }
  apply wp_run in H. fold t in H. destruct (t.1) as [[]|e].
  - destruct H as (l & Hl & [[Hn Hs]|Hi]); exists l.
    + split; [exact Hl|]. split; [auto|]. intros _ Hr. contradiction.
    + destruct Hi as (i & Hl1 & Hi & Hx). split; [exact Hl|].
      split; [eauto|]. intros _ _. rewrite Hl1. discriminate.
  - destruct H as (l & Hl & Hd). exists l. split; [exact Hl|].
    split; [exact Hd|]. intros Hn. discriminate Hn.
Qed.

Lemma frame_ticks_at_most_once_witness :
  let t := main_loop_tick_during Demo.env Demo.opts []
             (with_queue [IStr "start"; IStr "start"] Demo.loaded) in
  t.1 = Normal tt /\ session_state t.2 = Running /\
  exists l,
    ticks (trace t.2) = ticks (trace Demo.loaded) ++ l /\ l <> [] /\
    (l = [] \/
     exists i, l = [i] /\ _instance t.2 = Some i /\ _executing t.2 = true).
Proof.
  assert (Hn : (main_loop_tick_during Demo.env Demo.opts []
             (with_queue [IStr "start"; IStr "start"] Demo.loaded)).1 = Normal tt)
    by (vm_compute; reflexivity).
  assert (Hs : session_state (main_loop_tick_during Demo.env Demo.opts []
             (with_queue [IStr "start"; IStr "start"] Demo.loaded)).2 = Running)
    by (vm_compute; reflexivity).
  cbv zeta. split; [exact Hn|]. split; [exact Hs|].
  destruct (frame_ticks_at_most_once Demo.env Demo.opts []
              (with_queue [IStr "start"; IStr "start"] Demo.loaded))
    as (l & Hl & Hd & Hr).
  exists l. split; [exact Hl|]. split; [exact (Hr Hn Hs) | exact Hd].
Defined.

(** ** The shared lock *)






Section Lock.

Variable W : world.
Variable opts : options.




End Lock.



(** ** Frames that take only lines from connections *)

Lemma handle_bytes (lines : list (list byte)) :
  Forall (fun x => exists b, x = IBytes b) (handle lines).
Proof.
  induction lines as [|l lines IH]; simpl; [constructor|].
  destruct (length (Py.strip_bytes l) =? 0); [constructor|].
  constructor; [eauto | exact IH].
Qed.

Lemma wp_drain_bytes (W : world) (opts : options) (q : list item) :
  Forall (fun x => exists b, x = IBytes b) q ->
  forall a,
  _remote_commands a = q ->
  wp (drain W opts q) (fun _ _ => False)
    (fun e a' =>
       e = QueueEmpty /\
       _module a' = _module a /\ _instance a' = _instance a /\
       _executing a' = _executing a /\ heap a' = heap a /\
       _remote_commands a' = [] /\
       gets (trace a') = gets (trace a) ++ q /\
       calls (trace a') = calls (trace a))
    a.
Proof.
  induction 1 as [|x q [b ->] Hq IH]; intros a Ha; simpl.
  - apply wp_raise. rewrite app_nil_r. auto 10.
  - apply wp_bind. unfold take.
    apply wp_bind, wp_modify, wp_bind, wp_emit.
    unfold wp at 1. rewrite bytes_item_is_inert.
    eapply wp_mono; [apply IH; reflexivity | intros ? ? [] |].
    cbn beta. norm. intros e a' (He & Hm & Hi & Hx & Hh & Hr & Hg & Hc).
    rewrite gets_app in Hg. rewrite calls_app in Hc. simpl in Hg, Hc.
    rewrite app_nil_r in Hc. rewrite <- app_assoc in Hg.
    repeat split; auto.
Qed.

(** X3: a frame whose queue holds what a request handler put there takes
    every item and applies none: the module, the instance, the
    executing flag and the namespaces are as before, and the only call it
    can make is the [tick()] of the frame. *)
Theorem remote_frames_change_nothing (W : world) (opts : options)
    (lines : list (list byte)) (a : MainApp) :
  let t := _main_loop_tick W opts (with_queue (handle lines) a) in
  _module t.2 = _module a /\
  _instance t.2 = _instance a /\
  _executing t.2 = _executing a /\
  heap t.2 = heap a /\
  _remote_commands t.2 = [] /\
  gets (trace t.2) = gets (trace a) ++ handle lines /\
  (calls (trace t.2) = calls (trace a) \/
   exists i, session_state a = Running /\ _instance a = Some i /\
             calls (trace t.2) = calls (trace a) ++ [(i, MTick)]).
Proof.
  intros t.
  assert (H : wp (_main_loop_tick W opts)
    (fun _ a' =>
       _module a' = _module a /\ _instance a' = _instance a /\
       _executing a' = _executing a /\ heap a' = heap a /\
       _remote_commands a' = [] /\
       gets (trace a') = gets (trace a) ++ handle lines /\
       (calls (trace a') = calls (trace a) \/
        exists i, session_state a = Running /\ _instance a = Some i /\
                  calls (trace a') = calls (trace a) ++ [(i, MTick)]))
    (fun _ a' =>
       _module a' = _module a /\ _instance a' = _instance a /\
       _executing a' = _executing a /\ heap a' = heap a /\
       _remote_commands a' = [] /\
       gets (trace a') = gets (trace a) ++ handle lines /\
       (calls (trace a') = calls (trace a) \/
        exists i, session_state a = Running /\ _instance a = Some i /\
                  calls (trace a') = calls (trace a) ++ [(i, MTick)]))
    (with_queue (handle lines) a)).
  { unfold _main_loop_tick, main_loop_tick_during.
    apply wp_bind, wp_emit, wp_bind, wp_try_except, wp_bind, wp_get. norm.
    cbn [drain_during].
    eapply wp_mono;
      [apply (wp_drain_bytes W opts (handle lines) (handle_bytes lines));
       reflexivity
      | intros ? ? [] |].
    cbn beta. norm. intros e a1 (-> & Hm & Hi & Hx & Hh & Hq & Hg & Hc).
    cbn [is_QueueEmpty]. apply wp_ret. cbn beta.
    rewrite gets_app in Hg. rewrite calls_app in Hc. simpl in Hg, Hc.
    rewrite app_nil_r in Hg, Hc.
    unfold tick_module, session_state.
    wp_steps; norm; rewrite ?gets_app, ?calls_app; simpl;
      rewrite ?app_nil_r, ?Hm, ?Hx, ?Hh, ?Hq, ?Hg, ?Hc;
      repeat (split; [congruence|]);
      try (left; reflexivity);
      right; eexists; rewrite <- Hi, <- Hx;
      repeat match goal with H : _ a1 = _ |- _ => rewrite H end;
      eauto. }
  apply wp_run in H. fold t in H. destruct (t.1); exact H.
Qed.

(** ** The queue over the frames of a run *)

Lemma wp_main_loop_fifo (W : world) (opts : options)
    (frames : list (list item)) : forall a,
  wp (main_loop W opts frames)
    (fun _ a' => exists taken,
       gets (trace a') = gets (trace a) ++ taken /\
       taken ++ _remote_commands a' = _remote_commands a ++ concat frames)
    (fun _ a' => exists taken n,
       n <= length frames /\
       gets (trace a') = gets (trace a) ++ taken /\
       taken ++ _remote_commands a' =
         _remote_commands a ++ concat (firstn n frames))
    a.
Proof.
  induction frames as [|new frames IH]; intros a; simpl.
  - apply wp_ret. exists []. rewrite !app_nil_r. auto.
  - apply wp_bind, wp_modify, wp_bind, wp_emit, wp_bind.
    change (with_event ELockAcquire
              (with_queue (_remote_commands a ++ new) a))
      with (with_queue (_remote_commands a ++ new)
              (with_event ELockAcquire a)).
    eapply wp_mono;
      [apply (wp_tick_drained W opts [] (_remote_commands a ++ new)) | |];
      cbn beta; unfold drained; norm.
    + intros _ a1 (t1 & Hg1 & Hq1).
      rewrite gets_app in Hg1. simpl in Hg1. rewrite app_nil_r in Hg1.
      rewrite firstn_nil in Hq1. simpl in Hq1. rewrite app_nil_r in Hq1.
      apply wp_bind, wp_emit.
      eapply wp_mono; [apply IH | |]; cbn beta; norm;
        rewrite gets_app; simpl; rewrite app_nil_r.
      * intros _ a2 (t2 & Hg2 & Hq2). exists (t1 ++ t2).
        rewrite Hg2, Hg1, <- !app_assoc. split; [reflexivity|].
        rewrite Hq2, !app_assoc, Hq1. reflexivity.
      * intros e a2 (t2 & n & Hn & Hg2 & Hq2). exists (t1 ++ t2), (S n).
        split; [lia|]. rewrite Hg2, Hg1, <- !app_assoc. split; [reflexivity|].
        simpl. rewrite Hq2, !app_assoc, Hq1. reflexivity.
    + intros e a1 (t1 & Hg1 & Hq1).
      rewrite gets_app in Hg1. simpl in Hg1. rewrite app_nil_r in Hg1.
      rewrite firstn_nil in Hq1. simpl in Hq1. rewrite app_nil_r in Hq1.
      exists t1, 1. split; [lia|]. split; [exact Hg1|].
      simpl. rewrite ?app_nil_r. exact Hq1.
Qed.

(** X10: over the frames of a run the commands are taken in the order
    they were put on the queue, across frames too: what was taken,
    followed by what is left on the queue, is what was queued at first
    followed by the arrivals of the frames that were begun.  A run that
    does not raise has begun them all. *)
Theorem commands_are_taken_in_order (W : world) (opts : options)
    (frames : list (list item)) (a : MainApp) :
  let r := main_loop W opts frames a in
  exists taken n,
    n <= length frames /\
    gets (trace r.2) = gets (trace a) ++ taken /\
    taken ++ _remote_commands r.2 =
      _remote_commands a ++ concat (firstn n frames) /\
    (r.1 = Normal tt -> n = length frames).
Proof.
  intros r. pose proof (wp_run _ _ _ _ (wp_main_loop_fifo W opts frames a)) as H.
  fold r in H. destruct (r.1) as [[]|e].
  - destruct H as (taken & Hg & Hq). exists taken, (length frames).
    rewrite firstn_all. auto.
  - destruct H as (taken & n & Hn & Hg & Hq). exists taken, n.
    repeat split; auto. discriminate.
Qed.

Lemma commands_are_taken_in_order_witness :
  let r := main_loop Demo.env Demo.opts
             [[IStr "load demo"]; [IStr "start"; IStr "cancel"]] init in
  r.1 = Normal tt /\
  exists taken,
    gets (trace r.2) = taken /\
    taken ++ _remote_commands r.2 =
      [IStr "load demo"; IStr "start"; IStr "cancel"].
Proof.
  assert (Hn : (main_loop Demo.env Demo.opts
             [[IStr "load demo"]; [IStr "start"; IStr "cancel"]] init).1
               = Normal tt) by (vm_compute; reflexivity).
  cbv zeta. split; [exact Hn|].
  destruct (commands_are_taken_in_order Demo.env Demo.opts
              [[IStr "load demo"]; [IStr "start"; IStr "cancel"]] init)
    as (taken & n & _ & Hg & Hq & Hr).
  exists taken. split; [exact Hg|]. rewrite Hq, (Hr Hn). reflexivity.
Defined.

(** ** [cancel] and [start] *)

(** X4: [cancel] and its alias [stop] call [cancel()] once when the
    session is Running and make no call otherwise; they leave the module,
    the instance and the namespaces alone.  On return the executing flag
    is clear; when [cancel()] raises the flag stays set. *)
Theorem cancel_clears_the_flag (W : world) (opts : options) (cmd : string)
    (a : MainApp) :
  In cmd ["cancel"; "stop"]%string ->
  let r := dispatch W opts cmd a in
  _module r.2 = _module a /\
  _instance r.2 = _instance a /\
  heap r.2 = heap a /\
  calls (trace r.2) =
    calls (trace a) ++
    match _instance a with
    | Some i => if _executing a then [(i, MCancel)] else []
    | None => []
    end /\
  match r.1 with
  | Normal _ => _executing r.2 = false
  | Raised _ => session_state a = Running /\ _executing r.2 = true
  end.
Proof.
  intros Hcmd r.
  assert (Hd : dispatch W opts cmd = cancel_module W).
  { simpl in Hcmd. destruct Hcmd as [<-|[<-|[]]]; reflexivity. }
  assert (H : wp (cancel_module W)
    (fun _ a' =>
       _module a' = _module a /\ _instance a' = _instance a /\
       heap a' = heap a /\
       calls (trace a') = calls (trace a) ++
         match _instance a with
         | Some i => if _executing a then [(i, MCancel)] else []
         | None => []
         end /\
       _executing a' = false)
    (fun _ a' =>
       _module a' = _module a /\ _instance a' = _instance a /\
       heap a' = heap a /\
       calls (trace a') = calls (trace a) ++
         match _instance a with
         | Some i => if _executing a then [(i, MCancel)] else []
         | None => []
         end /\
       session_state a = Running /\ _executing a' = true)
    a).
  { unfold cancel_module, session_state.
    wp_steps; simplify_eq; norm;
      repeat (rewrite ?calls_app; simpl); rewrite ?app_nil_r;
      repeat match goal with H : _ a = _ |- _ => rewrite H end;
      auto 10. }
  apply wp_run in H. subst r. rewrite Hd.
  destruct ((cancel_module W a).1); tauto.
Qed.

Lemma cancel_clears_the_flag_witness :
  let r := dispatch Demo.env Demo.opts "stop" Demo.running in
  calls (trace r.2) = calls (trace Demo.running) ++ [(0, MCancel)] /\
  _executing r.2 = false /\
  calls (trace (dispatch Demo.env Demo.opts "stop" r.2).2) = calls (trace r.2).
Proof.
  destruct (cancel_clears_the_flag Demo.env Demo.opts "stop" Demo.running)
    as (_ & _ & _ & Hc & Hx); [simpl; auto|].
  destruct (cancel_clears_the_flag Demo.env Demo.opts "stop"
              (dispatch Demo.env Demo.opts "stop" Demo.running).2)
    as (_ & _ & _ & Hc2 & _); [simpl; auto|].
  cbv zeta. split; [exact Hc|]. split; [vm_compute; reflexivity|].
  rewrite Hc2. vm_compute. reflexivity.
Defined.

(** X5: [start] in the Loaded state calls [start()] once on the instance
    and no [cancel()]; the module, the instance and the namespaces stay.
    The session is Running when [start()] has returned and still Loaded
    when it raised. *)
Theorem start_when_loaded_starts_once (W : world) (opts : options)
    (a : MainApp) (i : inst) :
  _instance a = Some i ->
  _executing a = false ->
  let r := dispatch W opts "start" a in
  _module r.2 = _module a /\
  _instance r.2 = Some i /\
  heap r.2 = heap a /\
  calls (trace r.2) = calls (trace a) ++ [(i, MStart)] /\
  match r.1 with
  | Normal _ => session_state r.2 = Running
  | Raised _ => session_state r.2 = Loaded
  end.
Proof.
  intros Hi Hx r.
  assert (H : wp (start_module W)
    (fun _ a' =>
       _module a' = _module a /\ _instance a' = Some i /\ heap a' = heap a /\
       calls (trace a') = calls (trace a) ++ [(i, MStart)] /\
       session_state a' = Running)
    (fun _ a' =>
       _module a' = _module a /\ _instance a' = Some i /\ heap a' = heap a /\
       calls (trace a') = calls (trace a) ++ [(i, MStart)] /\
       session_state a' = Loaded)
    a).
  { unfold start_module, cancel_module, session_state.
    wp_steps; simplify_eq; norm;
      repeat (rewrite ?calls_app; simpl); rewrite ?app_nil_r;
      repeat match goal with H : _ a = _ |- _ => rewrite H end;
      auto 10. }
  apply wp_run in H. change (dispatch W opts "start") with (start_module W) in r.
  subst r. destruct ((start_module W a).1); tauto.
Qed.

Lemma start_when_loaded_witness :
  _instance Demo.loaded = Some 0 /\
  _executing Demo.loaded = false /\
  let r := dispatch Demo.env Demo.opts "start" Demo.loaded in
  calls (trace r.2) = calls (trace Demo.loaded) ++ [(0, MStart)] /\
  session_state r.2 = Running.
Proof.
  assert (Hi : _instance Demo.loaded = Some 0) by (vm_compute; reflexivity).
  assert (Hx : _executing Demo.loaded = false) by (vm_compute; reflexivity).
  split; [exact Hi|]. split; [exact Hx|].
  destruct (start_when_loaded_starts_once Demo.env Demo.opts Demo.loaded 0
              Hi Hx) as (_ & _ & _ & Hc & Hs).
  cbv zeta. split; [exact Hc|]. vm_compute. reflexivity.
Defined.

(** ** A [load] in the Running state *)

(** X6: [load] does not touch the executing flag.  A successful [load] in
    the Running state prunes the old instance, makes a new one, distinct
    from it, and leaves the session Running: the frame then ticks the new
    instance although [start()] was never called on it. *)
Theorem load_keeps_the_executing_flag (W : world) (opts : options)
    (name : string) (m : pymodule) (d0 : dict) (a : MainApp) (i : inst) :
  name <> ""%string ->
  (forall tr, w_import W tr name = inr m) ->
  (forall tr, w_Main W tr m = inr d0) ->
  (forall tr i e, w_call W tr i MPrune = Some e -> is_Exception e = true) ->
  session_state a = Running ->
  _instance a = Some i ->
  is_Some (heap a !! i) ->
  let r := dispatch W opts ("load " +:+ name) a in
  let j := fresh (dom (heap a)) in
  r.1 = Normal tt /\
  j <> i /\
  _instance r.2 = Some j /\
  session_state r.2 = Running /\
  calls (trace r.2) = calls (trace a) ++ [(i, MPrune)] /\
  calls (trace (tick_module W r.2).2) =
    calls (trace a) ++ [(i, MPrune); (j, MTick)].
Proof.
  intros Hn Himp Hmain Hprune Hs Hi Hh r j.
  assert (Hx : _executing a = true).
  { unfold session_state in Hs. rewrite Hi in Hs.
    destruct (_executing a); [reflexivity | discriminate]. }
  change (dispatch W opts ("load " +:+ name)) with (load_module W opts name) in r.
  pose proof (wp_run _ _ _ _
    (wp_load_module_ok W opts name m d0 a Hn Himp Hmain Hprune)) as H.
  fold r in H. destruct (r.1) as [[]|e]; [|contradiction].
  destruct H as (Hm' & Hi' & Hx' & Hh' & Hc').
  unfold prior_prune in Hc'. rewrite Hi in Hc'. fold j in Hi'.
  split; [reflexivity|]. split.
  { intros Hj. apply (is_fresh (dom (heap a))). fold j. rewrite Hj.
    apply elem_of_dom. exact Hh. }
  split; [exact Hi'|]. split.
  { unfold session_state. rewrite Hi', Hx', Hx. reflexivity. }
  split; [exact Hc'|].
  assert (Ht : wp (tick_module W)
    (fun _ a' => calls (trace a') = calls (trace r.2) ++ [(j, MTick)])
    (fun _ a' => calls (trace a') = calls (trace r.2) ++ [(j, MTick)]) r.2).
  { unfold tick_module.
    wp_steps; simplify_eq; norm; rewrite ?calls_app; reflexivity. }
  apply wp_run in Ht. rewrite Hc', <- app_assoc in Ht.
  destruct ((tick_module W r.2).1); exact Ht.
Qed.

Lemma load_keeps_the_executing_flag_witness :
  session_state Demo.running = Running /\
  let r := dispatch Demo.env Demo.opts ("load " +:+ "demo") Demo.running in
  _instance r.2 = Some 1 /\
  session_state r.2 = Running /\
  calls (trace (tick_module Demo.env r.2).2) =
    calls (trace Demo.running) ++ [(0, MPrune); (1, MTick)].
Proof.
  assert (Hs : session_state Demo.running = Running) by (vm_compute; reflexivity).
  split; [exact Hs|].
  destruct (load_keeps_the_executing_flag Demo.env Demo.opts "demo" Demo.demo
              ∅ Demo.running 0) as (_ & _ & Hi & Hr & _ & Hc).
  - discriminate.
  - intros tr. reflexivity.
  - intros tr. reflexivity.
  - intros tr i e H. discriminate H.
  - exact Hs.
  - vm_compute. reflexivity.
  - vm_compute. eauto.
  - cbv zeta. split; [|split; [exact Hr|]].
    + rewrite Hi. vm_compute. reflexivity.
    + rewrite Hc. vm_compute. reflexivity.
Defined.

(** ** Failures inside a config *)

Section ConfigFails.

Variable W : world.
Variable opts : options.

(** [load_config] on a file that is found and opens: what is left to show
    is the body of the [with], run after the prints and the look-ups, with
    its handler. *)
Lemma wp_load_config_opened (name file : string) (lines : list string)
    (Q : unit -> MainApp -> Prop) (E : exn -> MainApp -> Prop) (a : MainApp) :
  resolves W opts name file ->
  (forall tr, w_open W tr file = inr lines) ->
  (forall a1,
     same_session a a1 -> heap a1 = heap a ->
     wp (bind (load_module W opts (Py.strip (hd ""%string lines)))
           (fun _ => bind (print LSettingVariables)
              (fun _ => bind (exec_lines W (tl lines))
                 (fun _ => print LConfigLoaded))))
       Q
       (fun e a' =>
          if is_Exception e then
            wp (bind (print (LConfigError name))
                  (fun _ => bind (print (LPrintExn e))
                     (fun _ => print (LTraceback e)))) Q E a'
          else E e a')
       a1) ->
  wp (load_config W opts name) Q E a.
Proof.
  intros Hres Hopen Hbody. unfold load_config.
  apply wp_bind, wp_print, wp_try_except.
  assert (Hs : forall a1, same_session a a1 -> heap a1 = heap a ->
    wp (bind (open_ W file) (fun lines =>
          bind (load_module W opts (Py.strip (hd ""%string lines)))
            (fun _ => bind (print LSettingVariables)
               (fun _ => bind (exec_lines W (tl lines))
                  (fun _ => print LConfigLoaded)))))
       Q
       (fun e a' =>
          if is_Exception e then
            wp (bind (print (LConfigError name))
                  (fun _ => bind (print (LPrintExn e))
                     (fun _ => print (LTraceback e)))) Q E a'
          else E e a')
       a1).
  { intros a1 H1 Hh1. apply wp_bind, wp_open. rewrite Hopen.
    apply Hbody; [|exact Hh1].
    apply same_session_event; [discriminate | exact H1]. }
  pose proof (same_session_refl a) as H0.
  destruct Hres as [[He ->]|(He1 & He2 & ->)].
  - apply wp_bind, wp_path_exists. rewrite He. norm.
    apply wp_bind, wp_ret. apply Hs; [|reflexivity].
    repeat (apply same_session_event; [discriminate|]). exact H0.
  - apply wp_bind, wp_path_exists. rewrite He1. norm.
    apply wp_bind, wp_bind, wp_path_exists. rewrite He2. norm.
    apply wp_ret. apply Hs; [|reflexivity].
    repeat (apply same_session_event; [discriminate|]). exact H0.
Qed.

End ConfigFails.

(** X7: a missing module is contained when it is named by a config: where
    the [load] command lets the error leave the frame, [load_config]
    catches it, prints that the config failed and returns.  The instance
    (pruned by then), the module, the executing flag and the namespaces
    are as before. *)
Theorem config_contains_a_missing_module (W : world) (opts : options)
    (name file first modname : string) (rest : list string) (a : MainApp) :
  resolves W opts name file ->
  (forall tr, w_open W tr file = inr (first :: rest)) ->
  Py.strip first = modname ->
  modname <> ""%string ->
  fails W modname Unresolved ->
  (forall tr i e, w_call W tr i MPrune = Some e -> is_Exception e = true) ->
  let r := load_config W opts name a in
  r.1 = Normal tt /\
  _module r.2 = _module a /\
  _instance r.2 = _instance a /\
  _executing r.2 = _executing a /\
  heap r.2 = heap a /\
  calls (trace r.2) = calls (trace a) ++ prior_prune a /\
  In (LConfigError name) (logs (trace r.2)).
Proof.
  intros Hres Hopen Hfirst Hne Hf Hprune r.
  assert (H : wp (load_config W opts name)
    (fun _ a' =>
       _module a' = _module a /\ _instance a' = _instance a /\
       _executing a' = _executing a /\ heap a' = heap a /\
       calls (trace a') = calls (trace a) ++ prior_prune a /\
       In (LConfigError name) (logs (trace a')))
    (fun _ _ => False) a).
  { apply (wp_load_config_opened W opts name file (first :: rest)); auto.
    intros a1 (Hm1 & Hi1 & Hx1 & Hc1) Hh1. cbn [hd tl]. rewrite Hfirst.
    apply wp_bind.
    eapply wp_mono;
      [apply (wp_load_module_fail W opts modname Unresolved); auto
      | intros ? ? [] |].
    cbn beta. unfold failed_load, prior_prune.
    intros e a2 (_ & _ & Hi2 & Hx2 & Hc2 & -> & Hm2 & Hh2 & _).
    cbn [is_Exception]. wp_steps.
    repeat (rewrite ?calls_app, ?logs_app; simpl). rewrite ?app_nil_r.
    rewrite Hi1 in Hc2.
    repeat split; try congruence.
    rewrite !in_app_iff. simpl. auto. }
  apply wp_run in H. fold r in H. destruct (r.1) as [[]|e]; [|contradiction].
  tauto.
Qed.

Lemma config_contains_a_missing_module_witness :
  fails Demo.stray_env "nosuch" Unresolved /\
  let r := load_config Demo.stray_env Demo.opts "study.cfg" Demo.running in
  r.1 = Normal tt /\
  _instance r.2 = _instance Demo.running /\
  calls (trace r.2) = calls (trace Demo.running) ++ [(0, MPrune)] /\
  In (LConfigError "study.cfg") (logs (trace r.2)).
Proof.
  assert (Hf : fails Demo.stray_env "nosuch" Unresolved)
    by (intros tr; reflexivity).
  split; [exact Hf|].
  destruct (config_contains_a_missing_module Demo.stray_env Demo.opts
    "study.cfg" "study.cfg" ("nosuch" +:+ Demo.nl) "nosuch"
    ["x=5" +:+ Demo.nl] Demo.running)
    as (Hr & _ & Hi & _ & _ & Hc & Hl).
  - left. split; [intros tr; reflexivity | reflexivity].
  - intros tr. reflexivity.
  - reflexivity.
  - discriminate.
  - exact Hf.
  - intros tr i e H. discriminate H.
  - cbv zeta. split; [exact Hr|]. split; [exact Hi|]. split; [exact Hc|].
    exact Hl.
Defined.

Lemma wp_exec_lines_stop (W : world) (X : string -> dict -> dict)
    (Y : dict -> dict) (bad : string) (e : exn) (later : list string)
    (good : list string) :
  (forall tr code d, In code good -> w_exec W tr code d = (X code d, None)) ->
  (forall tr d, w_exec W tr bad d = (Y d, Some e)) ->
  forall (a : MainApp) (i : inst) (d : dict),
  _instance a = Some i ->
  heap a !! i = Some d ->
  wp (exec_lines W (good ++ bad :: later)) (fun _ _ => False)
    (fun e' a' =>
       e' = e /\
       _module a' = _module a /\ _instance a' = Some i /\
       _executing a' = _executing a /\
       heap a' !! i = Some (Y (fold_left (fun d line => X line d) good d)) /\
       calls (trace a') = calls (trace a) /\
       logs (trace a') = logs (trace a))
    a.
Proof.
  intros HX HY. induction good as [|line good IH]; intros a i d Hi Hd; simpl.
  - apply wp_bind, wp_the_instance. rewrite Hi.
    apply wp_bind, wp_exec. intros d' r Hr.
    rewrite HY in Hr. injection Hr as <- <-. rewrite Hd. simpl. norm.
    rewrite lookup_insert_eq, calls_app, logs_app. simpl.
    rewrite !app_nil_r. auto 10.
  - apply wp_bind, wp_the_instance. rewrite Hi.
    apply wp_bind, wp_exec. intros d' r Hr.
    rewrite HX in Hr by (left; reflexivity). injection Hr as <- <-.
    rewrite Hd. simpl.
    assert (HX' : forall tr code d, In code good ->
              w_exec W tr code d = (X code d, None))
      by (intros; apply HX; right; assumption).
    eapply wp_mono; [apply (IH HX' _ i (X line d)) | auto |]; norm; auto.
    + apply lookup_insert_eq.
    + cbn beta. intros e' a' (He & H1 & H2 & H3 & H4 & H5 & H6). norm.
      rewrite calls_app, app_nil_r in H5. rewrite logs_app, app_nil_r in H6.
      auto 10.
Qed.

(** X8: a config line whose [exec] raises an [Exception] ends the
    assignments and nothing else: the module of the first line stays
    loaded, the lines before the failing one have been applied in order
    (and what the failing line did to the namespace stays), the lines
    after it are not run, and [load_config] prints the failure and
    returns. *)
Theorem config_stops_at_a_failing_line (W : world) (opts : options)
    (name file first modname bad : string) (good later : list string)
    (m : pymodule) (d0 : dict) (X : string -> dict -> dict)
    (Y : dict -> dict) (e : exn) (a : MainApp) :
  resolves W opts name file ->
  (forall tr, w_open W tr file = inr (first :: good ++ bad :: later)) ->
  Py.strip first = modname ->
  modname <> ""%string ->
  (forall tr, w_import W tr modname = inr m) ->
  (forall tr, w_Main W tr m = inr d0) ->
  (forall tr code d, In code good -> w_exec W tr code d = (X code d, None)) ->
  (forall tr d, w_exec W tr bad d = (Y d, Some e)) ->
  is_Exception e = true ->
  (forall tr i e, w_call W tr i MPrune = Some e -> is_Exception e = true) ->
  let r := load_config W opts name a in
  let j := fresh (dom (heap a)) in
  r.1 = Normal tt /\
  _module r.2 = Some m /\
  _instance r.2 = Some j /\
  heap r.2 !! j =
    Some (Y (fold_left (fun d line => X line d) good (fitted opts d0))) /\
  In (LConfigError name) (logs (trace r.2)).
Proof.
  intros Hres Hopen Hfirst Hne Himp Hmain HX HY He Hprune r j.
  assert (H : wp (load_config W opts name)
    (fun _ a' =>
       _module a' = Some m /\ _instance a' = Some j /\
       heap a' !! j =
         Some (Y (fold_left (fun d line => X line d) good (fitted opts d0))) /\
       In (LConfigError name) (logs (trace a')))
    (fun _ _ => False) a).
  { apply (wp_load_config_opened W opts name file
             (first :: good ++ bad :: later)); auto.
    intros a1 (Hm1 & Hi1 & Hx1 & Hc1) Hh1. cbn [hd tl]. rewrite Hfirst.
    apply wp_bind.
    eapply wp_mono;
      [apply (wp_load_module_ok W opts modname m d0); auto | | intros ? ? []].
    cbn beta. intros _ a2 (Hm2 & Hi2 & Hx2 & Hh2 & Hc2).
    rewrite Hh1 in Hi2, Hh2. fold j in Hi2, Hh2.
    apply wp_bind, wp_print, wp_bind.
    eapply wp_mono;
      [apply (wp_exec_lines_stop W X Y bad e later good HX HY _ j
                (fitted opts d0))
      | intros ? ? [] |]; norm.
    - exact Hi2.
    - rewrite Hh2. apply lookup_insert_eq.
    - cbn beta. intros e' a3 (-> & Hm3 & Hi3 & Hx3 & Hh3 & Hc3 & Hl3).
      rewrite He. wp_steps.
      repeat (rewrite ?logs_app; simpl).
      repeat split; try congruence.
      rewrite !in_app_iff. simpl. auto. }
  apply wp_run in H. fold r in H. destruct (r.1) as [[]|e']; [|contradiction].
  tauto.
Qed.

Lemma config_stops_at_a_failing_line_witness :
  let r := load_config Demo.flawed_env Demo.opts "study.cfg" init in
  r.1 = Normal tt /\
  _module r.2 = Some Demo.demo /\
  exists d,
    heap r.2 !! 0 = Some d /\
    d !! "x"%string = Some (VInt 5) /\ d !! "y"%string = None.
Proof.
  destruct (config_stops_at_a_failing_line Demo.flawed_env Demo.opts
    "study.cfg" "study.cfg" ("demo" +:+ Demo.nl) "demo" ("oops" +:+ Demo.nl)
    ["x=5" +:+ Demo.nl] ["y=1" +:+ Demo.nl] Demo.demo ∅
    (fun code d => (Demo.exec_assign code d).1)
    (fun d => (Demo.exec_assign ("oops" +:+ Demo.nl) d).1)
    (OtherException 0) init)
    as (Hr & Hm & _ & Hh & _).
  - left. split; [intros tr; reflexivity | reflexivity].
  - intros tr. reflexivity.
  - reflexivity.
  - discriminate.
  - intros tr. reflexivity.
  - intros tr. reflexivity.
  - intros tr code d [<-|[]]. reflexivity.
  - intros tr d. reflexivity.
  - reflexivity.
  - intros tr i e H. discriminate H.
  - cbv zeta. split; [exact Hr|]. split; [exact Hm|].
    eexists. split; [exact Hh|]. split; vm_compute; reflexivity.
Defined.

(** ** The [.cfg] of a [config] command *)

Lemma rev_app_append (s1 s2 acc : string) :
  String.rev_app (s1 +:+ s2) acc = String.rev_app s2 (String.rev_app s1 acc).
Proof.
  revert acc. induction s1 as [|c s1 IH]; intros acc; [reflexivity|].
  change (String c s1 +:+ s2) with (String c (s1 +:+ s2)). simpl. apply IH.
Qed.

Lemma rev_app_acc (s acc : string) :
  String.rev_app s acc = String.rev_app s "" +:+ acc.
Proof.
  revert acc. induction s as [|c s IH]; intros acc; [reflexivity|].
  simpl. rewrite (IH (String c acc)), (IH (String c "")).
  generalize (String.rev_app s ""). intros t.
  induction t as [|d t IHt]; [reflexivity|].
  change (String d t +:+ String c acc) with (String d (t +:+ String c acc)).
  change ((String d t +:+ String c "") +:+ acc)
    with (String d ((t +:+ String c "") +:+ acc)).
  rewrite IHt. reflexivity.
Qed.

Lemma startswith_append (p s : string) : Py.startswith (p +:+ s) p = true.
Proof.
  induction p as [|c p IH]; [reflexivity|].
  change (String c p +:+ s) with (String c (p +:+ s)). simpl.
  rewrite Ascii.eqb_refl, IH. reflexivity.
Qed.

Lemma endswith_append (s p : string) : Py.endswith (s +:+ p) p = true.
Proof.
  unfold Py.endswith, String.rev.
  rewrite rev_app_append, rev_app_acc. apply startswith_append.
Qed.

(** X11: the [.cfg] of a [config] command is optional: a command that
    does not end with it loads the file of that name with [.cfg] added,
    as the command with the [.cfg] written out does. *)
Theorem config_suffix_is_optional (W : world) (opts : options)
    (name : string) :
  Py.endswith ("config " +:+ name) ".cfg" = false ->
  dispatch W opts ("config " +:+ name) = load_config W opts (name +:+ ".cfg") /\
  dispatch W opts ("config " +:+ name +:+ ".cfg") =
    load_config W opts (name +:+ ".cfg").
Proof.
  intros H. split.
  - rewrite dispatch_config, H. reflexivity.
  - rewrite dispatch_config.
    change ("config " +:+ name +:+ ".cfg")
      with (String "c" (String "o" (String "n" (String "f" (String "i"
             (String "g" (String " " (name +:+ ".cfg")))))))).
    assert (He : Py.endswith
              (String "c" (String "o" (String "n" (String "f" (String "i"
                (String "g" (String " " (name +:+ ".cfg"))))))))
              ".cfg" = true).
    { change (String "c" (String "o" (String "n" (String "f" (String "i"
                (String "g" (String " " (name +:+ ".cfg"))))))))
        with ("config " +:+ (name +:+ ".cfg")).
      replace ("config " +:+ (name +:+ ".cfg"))
        with (("config " +:+ name) +:+ ".cfg").
      - apply endswith_append.
      - reflexivity. }
    rewrite He. reflexivity.
Qed.

Lemma config_suffix_is_optional_witness :
  Py.endswith ("config " +:+ "study") ".cfg" = false /\
  dispatch Demo.env Demo.opts ("config " +:+ "study") =
    dispatch Demo.env Demo.opts ("config " +:+ "study" +:+ ".cfg").
Proof.
  assert (H : Py.endswith ("config " +:+ "study") ".cfg" = false)
    by reflexivity.
  split; [exact H|].
  destruct (config_suffix_is_optional Demo.env Demo.opts "study" H) as [-> ->].
  reflexivity.
Defined.

(** ** Startup *)

Lemma wp_load_module_first (W : world) (opts : options) (name : string)
    (m : pymodule) (d0 : dict) (a : MainApp) :
  name <> ""%string ->
  (forall tr, w_import W tr name = inr m) ->
  (forall tr, w_Main W tr m = inr d0) ->
  _instance a = None ->
  wp (load_module W opts name)
    (fun _ a' =>
       _module a' = Some m /\
       _instance a' = Some (fresh (dom (heap a))) /\
       _executing a' = _executing a /\
       heap a' = <[fresh (dom (heap a)) := fitted opts d0]> (heap a) /\
       calls (trace a') = calls (trace a))
    (fun _ _ => False) a.
Proof.
  intros Hn Himp Hmain Hi. unfold load_module.
  destruct name as [|c name]; [congruence|]. cbn [String.length Nat.ltb Nat.leb].
  unfold import_module.
  repeat (first [progress rewrite_world | wp_step]; norm); simplify_eq.
  repeat (rewrite ?calls_app; simpl). rewrite ?app_nil_r.
  unfold fitted. rewrite !lookup_insert_eq. simpl.
  rewrite !insert_insert_eq. auto 10.
Qed.

(** X13: started with a module that is no config and that loads,
    [MainApp.__init__] leaves that module loaded in a new instance; with
    the automatic start it calls [start()] once on it, and no [cancel()]
    or [prune()], and the session is Running when [start()] returns;
    without it no method is called and the session is Loaded. *)
Theorem startup_loads_then_starts (W : world) (opts : options)
    (name : string) (m : pymodule) (d0 : dict) :
  module opts = Some name ->
  Py.endswith name ".cfg" = false ->
  name <> ""%string ->
  (forall tr, w_import W tr name = inr m) ->
  (forall tr, w_Main W tr m = inr d0) ->
  let r := MainApp_init W opts init in
  let j := fresh (dom (heap init)) in
  _module r.2 = Some m /\
  _instance r.2 = Some j /\
  heap r.2 !! j = Some (fitted opts d0) /\
  calls (trace r.2) = (if autolaunch opts then [(j, MStart)] else []) /\
  match r.1 with
  | Normal _ =>
      session_state r.2 = (if autolaunch opts then Running else Loaded)
  | Raised _ => session_state r.2 = Loaded
  end.
Proof.
  intros Hmod Hcfg Hn Himp Hmain r j.
  assert (H : wp (MainApp_init W opts)
    (fun _ a' =>
       _module a' = Some m /\ _instance a' = Some j /\
       heap a' !! j = Some (fitted opts d0) /\
       calls (trace a') = (if autolaunch opts then [(j, MStart)] else []) /\
       session_state a' = (if autolaunch opts then Running else Loaded))
    (fun _ a' =>
       _module a' = Some m /\ _instance a' = Some j /\
       heap a' !! j = Some (fitted opts d0) /\
       calls (trace a') = (if autolaunch opts then [(j, MStart)] else []) /\
       session_state a' = Loaded)
    init).
  { unfold MainApp_init. rewrite Hmod, Hcfg. apply wp_bind.
    eapply wp_mono;
      [apply (wp_load_module_first W opts name m d0 init); auto
      | | intros ? ? []].
    cbn beta. fold j. intros _ a1 (Hm1 & Hi1 & Hx1 & Hh1 & Hc1).
    assert (Hl : heap a1 !! j = Some (fitted opts d0))
      by (rewrite Hh1; apply lookup_insert_eq).
    simpl in Hx1, Hc1.
    destruct (autolaunch opts).
    - unfold start_module, cancel_module, session_state.
      wp_steps; simplify_eq; norm;
        repeat (rewrite ?calls_app; simpl); rewrite ?app_nil_r, ?Hc1;
        repeat match goal with H : _ a1 = _ |- _ => rewrite H end;
        auto 10.
    - apply wp_ret. unfold session_state. rewrite Hi1, Hx1. auto 10. }
  apply wp_run in H. fold r in H. destruct (r.1); tauto.
Qed.

Lemma startup_loads_then_starts_witness :
  let r := MainApp_init Demo.env Demo.auto_opts init in
  r.1 = Normal tt /\
  _instance r.2 = Some 0 /\
  calls (trace r.2) = [(0, MStart)] /\
  session_state r.2 = Running.
Proof.
  assert (Hn : (MainApp_init Demo.env Demo.auto_opts init).1 = Normal tt)
    by (vm_compute; reflexivity).
  destruct (startup_loads_then_starts Demo.env Demo.auto_opts "demo"
              Demo.demo ∅) as (_ & Hi & _ & Hc & Hs).
  - reflexivity.
  - reflexivity.
  - discriminate.
  - intros tr. reflexivity.
  - intros tr. reflexivity.
  - cbv zeta. rewrite Hn in Hs. split; [exact Hn|]. split; [exact Hi|].
    split; [exact Hc | exact Hs].
Defined.

(** ** What [setup] does to the namespaces *)

(** X14: a [setup] command runs its text once, on the namespace of the
    current instance: that namespace is afterwards what [exec] left of
    it, also when [exec] raised, and the namespace of every other
    instance is untouched. *)
Theorem setup_runs_on_the_current_namespace (W : world) (opts : options)
    (code : string) (a : MainApp) (i : inst) (d d' : dict) (x : option exn) :
  _instance a = Some i ->
  heap a !! i = Some d ->
  w_exec W (trace a) code d = (d', x) ->
  let r := dispatch W opts ("setup " +:+ code) a in
  heap r.2 !! i = Some d' /\
  (forall k, k <> i -> heap r.2 !! k = heap a !! k) /\
  trace r.2 = trace a ++ [EExec code i].
Proof.
  intros Hi Hd Hx r. subst r. rewrite dispatch_setup.
  assert (H : wp (try_except (bind the_instance (fun i => exec_ W code i))
                    (fun _ => true) (fun _ => ret tt))
    (fun _ a' =>
       heap a' !! i = Some d' /\
       (forall k, k <> i -> heap a' !! k = heap a !! k) /\
       trace a' = trace a ++ [EExec code i])
    (fun _ _ => False) a).
  { apply wp_try_except, wp_bind, wp_the_instance. rewrite Hi.
    apply wp_exec. intros d1 r1 Hr. rewrite Hd in Hr. simpl in Hr.
    rewrite Hx in Hr. injection Hr as <- <-.
    assert (Hg : heap (with_event (EExec code i)
                   (with_heap (<[i := d']> (heap a)) a)) !! i = Some d' /\
                 (forall k, k <> i ->
                    heap (with_event (EExec code i)
                      (with_heap (<[i := d']> (heap a)) a)) !! k
                    = heap a !! k) /\
                 trace (with_event (EExec code i)
                   (with_heap (<[i := d']> (heap a)) a))
                 = trace a ++ [EExec code i]).
    { norm. split; [apply lookup_insert_eq|]. split; [|reflexivity].
      intros k Hk. apply lookup_insert_ne. congruence. }
    destruct x; [apply wp_ret|]; exact Hg. }
  apply wp_run in H.
  destruct ((try_except (bind the_instance (fun i => exec_ W code i))
               (fun _ => true) (fun _ => ret tt) a).1); [exact H | contradiction].
Qed.

Lemma setup_runs_on_the_current_namespace_witness :
  let r := dispatch Demo.env Demo.opts ("setup " +:+ "x=7") Demo.loaded in
  exists d, heap r.2 !! 0 = Some d /\ d !! "x"%string = Some (VInt 7).
Proof.
  destruct (setup_runs_on_the_current_namespace Demo.env Demo.opts "x=7"
    Demo.loaded 0 (fitted Demo.opts ∅)
    (Demo.exec_assign "x=7" (fitted Demo.opts ∅)).1 None) as (Hh & _).
  - vm_compute. reflexivity.
  - vm_compute. reflexivity.
  - reflexivity.
  - cbv zeta. eexists. split; [exact Hh|]. vm_compute. reflexivity.
Defined.

(** ** Where a config is looked for *)

(** X15: the working directory comes first: when the file of a config is
    there, [load_config] opens it without looking under the study path,
    whatever is there. *)
Theorem config_prefers_the_working_directory (W : world) (opts : options)
    (name : string) (a : MainApp) :
  (forall tr, w_exists W tr name = true) ->
  let r := load_config W opts name a in
  exists rest,
    trace r.2 =
      trace a ++
      ELog (LAttemptConfig name) :: EExists name :: EOpen name :: rest.
Proof.
  intros He r.
  assert (Hgo : forall a3 a',
    trace a3 = trace a ++
      [ELog (LAttemptConfig name); EExists name; EOpen name] ->
    extends a3 a' ->
    exists rest, trace a' = trace a ++
      ELog (LAttemptConfig name) :: EExists name :: EOpen name :: rest).
  { intros a3 a' H3 [_ (evs & Ht & _)]. exists evs.
    rewrite Ht, H3, <- app_assoc. reflexivity. }
  assert (H : wp (load_config W opts name)
    (fun _ a' => exists rest, trace a' = trace a ++
       ELog (LAttemptConfig name) :: EExists name :: EOpen name :: rest)
    (fun _ a' => exists rest, trace a' = trace a ++
       ELog (LAttemptConfig name) :: EExists name :: EOpen name :: rest)
    a).
  { unfold load_config.
    apply wp_bind, wp_print, wp_try_except, wp_bind, wp_path_exists.
    rewrite He. norm. apply wp_bind, wp_ret.
    assert (Hp : forall l a3 a', extends a3 a' ->
              wp (print l) (fun _ => extends a3) (fun _ => extends a3) a').
    { intros l a3 a' Ha'. apply wp_print, extends_event; [reflexivity|exact Ha']. }
    apply wp_bind, wp_open.
    set (a3 := with_event (EOpen name)
                 (with_event (EExists name)
                    (with_event (ELog (LAttemptConfig name)) a))).
    assert (H3 : trace a3 = trace a ++
              [ELog (LAttemptConfig name); EExists name; EOpen name]).
    { subst a3. norm. rewrite <- !app_assoc. reflexivity. }
    assert (Hh : forall e a', extends a3 a' ->
      if is_Exception e
      then wp (bind (print (LConfigError name))
                 (fun _ => bind (print (LPrintExn e))
                    (fun _ => print (LTraceback e))))
             (fun _ a' => exists rest, trace a' = trace a ++
                ELog (LAttemptConfig name) :: EExists name :: EOpen name :: rest)
             (fun _ a' => exists rest, trace a' = trace a ++
                ELog (LAttemptConfig name) :: EExists name :: EOpen name :: rest)
             a'
      else exists rest, trace a' = trace a ++
             ELog (LAttemptConfig name) :: EExists name :: EOpen name :: rest).
    { intros e a' Ha'. destruct (is_Exception e); [|exact (Hgo a3 a' H3 Ha')].
      apply wp_bind.
      eapply wp_mono; [apply Hp, Ha' | cbn beta | cbn beta; eauto].
      intros _ a4 Ha4. apply wp_bind.
      eapply wp_mono; [apply Hp, Ha4 | cbn beta | cbn beta; eauto].
      intros _ a5 Ha5.
      eapply wp_mono; [apply Hp, Ha5 | cbn beta; eauto | cbn beta; eauto]. }
    destruct (w_open W _ name) as [e|lines].
    - apply Hh, extends_refl.
    - apply wp_bind.
      eapply wp_mono;
        [apply (extends_load_module W opts a3), extends_refl
        | cbn beta | cbn beta; intros; apply Hh; assumption].
      intros _ a4 Ha4. apply wp_bind.
      eapply wp_mono;
        [apply Hp, Ha4 | cbn beta | cbn beta; intros; apply Hh; assumption].
      intros _ a5 Ha5. apply wp_bind.
      eapply wp_mono;
        [apply (extends_exec_lines W a3), Ha5
        | cbn beta | cbn beta; intros; apply Hh; assumption].
      intros _ a6 Ha6.
      eapply wp_mono;
        [apply Hp, Ha6 | cbn beta; eauto
        | cbn beta; intros; apply Hh; assumption]. }
  apply wp_run in H. fold r in H. destruct (r.1); exact H.
Qed.

Lemma config_prefers_the_working_directory_witness :
  let r := load_config Demo.blank_env Demo.opts "study.cfg" init in
  exists rest,
    trace r.2 =
      trace init ++
      ELog (LAttemptConfig "study.cfg") :: EExists "study.cfg"
      :: EOpen "study.cfg" :: rest.
Proof.
  apply (config_prefers_the_working_directory Demo.blank_env Demo.opts
           "study.cfg" init).
  intros tr. reflexivity.
Defined.
